(** * luna: scope resolution and register allocation of the code generator

    A shallow embedding of [src/Visitor.cpp]: the flat name table with its
    chain of [NameScope] objects, and the [CodeGenerateVisitor] handlers that
    lower an AST into register bytecode.

    Conventions of the embedding.
    - A C++ pointer into a heap of objects is an [option nat]: [None] is
      [nullptr], [Some a] is the object at address [a].  [String *] and
      [Function *] are such pointers; two pointers are equal exactly when
      they are the same address, whatever the objects hold.
    - A [NameScope *] is the scope record itself: a [NameScope] is never
      written to after its constructor has run, and the scopes alive at one
      time form one chain, on which each has a different [previous_]; so
      the record and a pointer to it carry the same information.  Its
      [name_list_] member, a pointer to the one [ScopeNameList] of the
      visitor, is the [ScopeNameList] passed to every operation.
    - [int] is [Z].  Signed overflow is undefined in C++; the embedding
      describes the executions without it.
    - Dereferencing [nullptr] and a failing [assert] end the run: they are
      the two [fault]s of the [outcome] monad. *)

From stdpp Require Import base numbers list option strings.

Open Scope Z_scope.

(** ** Outcomes *)

Inductive fault : Type :=
| NullDereference
| AssertFailure.

Inductive outcome (A : Type) : Type :=
| Ok (a : A)
| Fault (f : fault).

Arguments Ok {A} a.
Arguments Fault {A} f.

Definition bind {A B : Type} (m : outcome A) (k : A -> outcome B) : outcome B :=
  match m with
  | Ok a => k a
  | Fault f => Fault f
  end.

Notation "'let*' x := m 'in' k" := (bind m (fun x => k))
  (at level 10, x pattern, m at level 100, k at level 200).

Definition pointer : Type := option nat.
Definition nullptr : pointer := None.

(** [std::size_t] is 64 bits wide: a sum of two sizes wraps modulo 2^64.
    The sum is taken in [N], so that it can be evaluated. *)
Definition size_t_add (x y : nat) : nat :=
  N.to_nat ((N.of_nat x + N.of_nat y) mod 2 ^ 64)%N.

(** [n] is a value of [std::size_t]. *)
Definition size_t_fits (n : nat) : Prop := (N.of_nat n < 2 ^ 64)%N.

(** The [String] objects of the program: the text held at each address.
    The visitor never reads through a [String *]; the heap only serves to
    say which pointers lead to equal text. *)
Definition StringHeap : Type := list string.

Definition text (heap : StringHeap) (p : pointer) : option string :=
  match p with
  | Some a => heap !! a
  | None => None
  end.

(** ** The name scope chain *)

Module Scope.

Record ScopeName : Type := mkScopeName {
  name_ : pointer;      (* String *name_ *)
  register_ : Z         (* int register_ *)
}.

(** [ScopeName()] *)
Definition ScopeName_default : ScopeName := mkScopeName nullptr 0.

#[global] Instance ScopeName_eq_dec : EqDecision ScopeName.
Proof. solve_decision. Defined.

#[warnings="-register-all"]
Inductive NameScope : Type := mkNameScope {
  previous_ : option NameScope;   (* NameScope *previous_ *)
  start_ : nat;                   (* std::size_t start_ *)
  owner_ : pointer                (* Function *owner_ *)
}.

Record ScopeNameList : Type := mkScopeNameList {
  name_list_ : list ScopeName;
  current_scope_ : option NameScope
}.

(** [ScopeNameList()] *)
Definition ScopeNameList_new : ScopeNameList := mkScopeNameList [] None.

(** [NameScope::NameScope(name_list, owner)]: the new scope and the
    updated list.  With no [owner] and no previous scope the constructor
    reads [previous_->owner_] through a null pointer. *)
Definition NameScope_new (name_list : ScopeNameList) (owner : pointer)
  : outcome (NameScope * ScopeNameList) :=
  let previous := current_scope_ name_list in
  let start := length (name_list_ name_list) in
  match owner with
  | Some _ =>
      let this := mkNameScope previous start owner in
      Ok (this, mkScopeNameList (name_list_ name_list) (Some this))
  | None =>
      match previous with
      | Some p =>
          let this := mkNameScope previous start (owner_ p) in
          Ok (this, mkScopeNameList (name_list_ name_list) (Some this))
      | None => Fault NullDereference
      end
  end.

(** [NameScope::~NameScope()] *)
Definition NameScope_delete (this : NameScope) (name_list : ScopeNameList)
  : ScopeNameList :=
  mkScopeNameList
    (resize (start_ this) ScopeName_default (name_list_ name_list))
    (previous_ this).

(** [GetScopeName(index)]; [start_ + index] is a sum of [std::size_t]. *)
Definition GetScopeName (this : NameScope) (name_list : ScopeNameList)
    (index : nat) : option ScopeName :=
  let i := size_t_add (start_ this) index in
  if decide (i < length (name_list_ name_list))%nat
  then name_list_ name_list !! i
  else None.

(** The loop of [IsBelongsToScope] over the entries from [start_] to the
    end of the table: the register of the first entry whose [name_] is the
    pointer [name]. *)
Fixpoint scan (name : pointer) (entries : list ScopeName) : option Z :=
  match entries with
  | [] => None
  | e :: rest =>
      if decide (name_ e = name) then Some (register_ e) else scan name rest
  end.

(** [IsBelongsToScope(name, reg)]: [Some r] when the method returns true,
    [r] being the value written to [*reg] when [reg] is given; [None] when
    it returns false (and [*reg] is left alone). *)
Definition IsBelongsToScope (this : NameScope) (name_list : ScopeNameList)
    (name : pointer) : option Z :=
  scan name (drop (start_ this) (name_list_ name_list)).

(** [AddScopeName(name, reg)]: the returned bool, the final value of
    [*reg], and the updated list. *)
Definition AddScopeName (this : NameScope) (name_list : ScopeNameList)
    (name : pointer) (reg : Z) : bool * Z * ScopeNameList :=
  match IsBelongsToScope this name_list name with
  | None =>
      (true, reg,
       mkScopeNameList (name_list_ name_list ++ [mkScopeName name reg])
                       (current_scope_ name_list))
  | Some r => (false, r, name_list)
  end.

(** [GetPrevious()] *)
Definition GetPrevious (this : NameScope) : option NameScope := previous_ this.

(** [GetBlongsToScope(name)]: the pair of the scope found and its owner. *)
Fixpoint GetBlongsToScope (this : NameScope) (name_list : ScopeNameList)
    (name : pointer) : option NameScope * pointer :=
  match this with
  | mkNameScope previous start owner =>
      match IsBelongsToScope this name_list name with
      | Some _ => (Some this, owner)
      | None =>
          match previous with
          | Some p => GetBlongsToScope p name_list name
          | None => (None, nullptr)
          end
      end
  end.

(** The scopes the walk of [GetBlongsToScope] can visit, innermost first:
    [this], [this->previous_], and so on to the outermost scope. *)
Fixpoint chain (this : NameScope) : list NameScope :=
  match this with
  | mkNameScope previous _ _ =>
      this :: match previous with
              | Some p => chain p
              | None => []
              end
  end.

(** *** Sequences of scope operations

    The three operations the visitor performs on the chain, always on the
    innermost scope: a [NameScope] is constructed ([open_scope]), names are
    added to [current_scope_] ([declare]), and the innermost [NameScope] is
    destroyed ([close_scope]). *)

Inductive ScopeOp : Type :=
| open_scope (owner : pointer)
| declare (name : pointer) (reg : Z)
| close_scope.

Definition step (op : ScopeOp) (name_list : ScopeNameList)
  : outcome ScopeNameList :=
  match op with
  | open_scope owner =>
      let* r := NameScope_new name_list owner in Ok (snd r)
  | declare name reg =>
      match current_scope_ name_list with
      | Some this => Ok (snd (AddScopeName this name_list name reg))
      | None => Fault NullDereference
      end
  | close_scope =>
      match current_scope_ name_list with
      | Some this => Ok (NameScope_delete this name_list)
      | None => Fault NullDereference
      end
  end.

Fixpoint run (ops : list ScopeOp) (name_list : ScopeNameList)
  : outcome ScopeNameList :=
  match ops with
  | [] => Ok name_list
  | op :: rest => let* nl := step op name_list in run rest nl
  end.

(** Sequences in which every [open_scope] is closed by its matching
    [close_scope] and no [close_scope] comes without an open before it. *)
Inductive Balanced : list ScopeOp -> Prop :=
| Balanced_nil : Balanced []
| Balanced_declare name reg ops :
    Balanced ops -> Balanced (declare name reg :: ops)
| Balanced_scope owner body ops :
    Balanced body -> Balanced ops ->
    Balanced (open_scope owner :: body ++ close_scope :: ops).

(** *** Chains built by the constructor

    [chain_ok bound this]: along the chain from [this] outwards every
    scope has an owner, starts at or before [bound], and starts at or
    after the scope it was opened in. *)
Fixpoint chain_ok (bound : nat) (this : NameScope) : Prop :=
  match this with
  | mkNameScope previous start owner =>
      owner <> nullptr /\ (start <= bound)%nat /\
      match previous with
      | Some p => chain_ok start p
      | None => True
      end
  end.

(** The chain of the innermost scope fits the table. *)
Definition list_ok (name_list : ScopeNameList) : Prop :=
  match current_scope_ name_list with
  | Some this => chain_ok (length (name_list_ name_list)) this
  | None => True
  end.

End Scope.

(** ** The function context

    [Function.h], [State.h] and the instruction encoder are not part of
    [Visitor.cpp]; the visitor only calls them. *)

Module Func.

Inductive OpType : Type :=
| OpType_LoadConst
| OpType_Move
| OpType_SetTop
| OpType_Call.

#[global] Instance OpType_eq_dec : EqDecision OpType.
Proof. solve_decision. Defined.

(** Modelled from the spec: the instruction encoder ([Instruction::ACode],
    [Instruction::ABCode]) is missing; an instruction is an opcode with its
    operand fields, produced once and never changed. *)
Inductive Instruction : Type :=
| ACode (op : OpType) (a : Z)
| ABCode (op : OpType) (a b : Z).

#[global] Instance Instruction_eq_dec : EqDecision Instruction.
Proof. solve_decision. Defined.

Definition opcode (i : Instruction) : OpType :=
  match i with
  | ACode op _ => op
  | ABCode op _ _ => op
  end.

Definition operand_a (i : Instruction) : Z :=
  match i with
  | ACode _ a => a
  | ABCode _ a _ => a
  end.

(** A literal of the constant pool: a number (kept as the integer naming
    its value, no claim looks inside) or a [String *]. *)
Inductive Constant : Type :=
| ConstNumber (n : Z)
| ConstString (s : pointer).

#[global] Instance Constant_eq_dec : EqDecision Constant.
Proof. solve_decision. Defined.

(** Modelled from the spec: the class [Function] is missing.  Its state is
    the spec's Function Context: the stack-top cursor, the register count
    (the spec's high-water mark), the constant pool, the instructions with
    their source lines, and the superior function; with the module and line
    stored by [SetBaseInfo]. *)
Record Function : Type := mkFunction {
  next_register : Z;
  register_count : Z;
  constants : list Constant;
  instructions : list (Instruction * Z);
  superior : pointer;
  module_ : pointer;
  line_ : Z
}.

Definition Function_new : Function :=
  mkFunction 0 0 [] [] nullptr nullptr 0.

(** Modelled from the spec: [SetBaseInfo] and [SetSuperior] store their
    arguments. *)
Definition SetBaseInfo (module : pointer) (line : Z) (f : Function) : Function :=
  mkFunction (next_register f) (register_count f) (constants f)
             (instructions f) (superior f) module line.

Definition SetSuperior (sup : pointer) (f : Function) : Function :=
  mkFunction (next_register f) (register_count f) (constants f)
             (instructions f) sup (module_ f) (line_ f).

(** Modelled from the spec: [next_register()] peeks at the cursor. *)
Definition GetNextRegister (f : Function) : Z := next_register f.

(** Modelled from the spec: [reserve_register()] returns the cursor, then
    increments it by one, updating the high-water mark. *)
Definition AllocaNextRegister (f : Function) : Z * Function :=
  (next_register f,
   mkFunction (next_register f + 1)
              (Z.max (register_count f) (next_register f + 1))
              (constants f) (instructions f) (superior f)
              (module_ f) (line_ f)).

(** Modelled from the spec: [set_next_register(r)] resets the cursor to
    [r] and leaves the high-water mark alone. *)
Definition SetNextRegister (r : Z) (f : Function) : Function :=
  mkFunction r (register_count f) (constants f) (instructions f)
             (superior f) (module_ f) (line_ f).

(** Modelled from the spec: the register count is the spec's high-water
    mark; [GetRegisterCount] reads it. *)
Definition GetRegisterCount (f : Function) : Z := register_count f.

(** Modelled from the spec: [SetRegisterCount] is missing and the spec
    gives it no contract of its own; the spec's data model says of the
    high-water mark that it records the largest register ever used and
    must never decrease, so the write raises the count to [count] and
    never lowers it. *)
Definition SetRegisterCount (count : Z) (f : Function) : Function :=
  mkFunction (next_register f) (Z.max (register_count f) count)
             (constants f) (instructions f)
             (superior f) (module_ f) (line_ f).

(** Modelled from the spec: [emit] appends an instruction with its line. *)
Definition AddInstruction (i : Instruction) (line : Z) (f : Function)
  : Function :=
  mkFunction (next_register f) (register_count f) (constants f)
             (instructions f ++ [(i, line)]) (superior f)
             (module_ f) (line_ f).

(** The index of the first slot of the pool holding [c], counted from [i]. *)
Fixpoint index_from (c : Constant) (pool : list Constant) (i : Z) : option Z :=
  match pool with
  | [] => None
  | c' :: rest => if decide (c' = c) then Some i else index_from c rest (i + 1)
  end.

(** Modelled from the spec: [add_constant] interns a literal; an equal
    literal already in the pool shares its slot. *)
Definition AddConst (c : Constant) (f : Function) : Z * Function :=
  match index_from c (constants f) 0 with
  | Some i => (i, f)
  | None =>
      (Z.of_nat (length (constants f)),
       mkFunction (next_register f) (register_count f) (constants f ++ [c])
                  (instructions f) (superior f) (module_ f) (line_ f))
  end.

Definition AddConstNumber (n : Z) (f : Function) : Z * Function :=
  AddConst (ConstNumber n) f.

Definition AddConstString (s : pointer) (f : Function) : Z * Function :=
  AddConst (ConstString s) f.

(** Modelled from the spec: [State] is missing; it owns the Function
    objects, and [NewFunction] creates one.  The heap of functions is a
    list, a [Function *] is an index into it. *)
Abbreviation State := (list Function).




Definition NewFunction (state : State) : nat * State :=
  (length state, state ++ [Function_new]).

End Func.

(** ** Tokens

    [TokenDetail] comes from the lexer's header. *)

Module Lex.

(** The token kinds the handlers test for; every other kind of the lexer
    is [Token_Other]. *)
Inductive Token : Type :=
| Token_Id
| Token_Number
| Token_String
| Token_Other (kind : Z).

#[global] Instance Token_eq_dec : EqDecision Token.
Proof. solve_decision. Defined.

Record TokenDetail : Type := mkTokenDetail {
  token_ : Token;
  number_ : Z;
  str_ : pointer;     (* String *str_ *)
  line_ : Z
}.

End Lex.

(** ** The code generating visitor *)

Module Gen.

Import Scope Func Lex.

(** The syntax tree, with the node kinds whose [Visit] is defined in
    [Visitor.cpp].  A child held by a [std::unique_ptr<SyntaxTree>] that may
    be empty is an [option]. *)
#[warnings="-register-all"]
Inductive SyntaxTree : Type :=
| Chunk (block_ : SyntaxTree) (module_ : pointer)
| Block (statements_ : list SyntaxTree) (return_stmt_ : option SyntaxTree)
| LocalNameListStatement (name_list_ : SyntaxTree) (exp_list_ : option SyntaxTree)
| Terminator (token_ : TokenDetail)
| NameList (names_ : list TokenDetail)
| NormalFuncCall (caller_ : SyntaxTree) (args_ : option SyntaxTree)
| ExpressionList (exp_list_ : list SyntaxTree).

Record NameReg : Type := mkNameReg {
  register_ : Z;
  token_ : TokenDetail      (* const TokenDetail *token_ *)
}.

Record CodeGenerateVisitor : Type := mkVisitor {
  state_ : State;
  scope_name_list_ : ScopeNameList;
  names_register_ : list NameReg;
  func_ : pointer
}.

(** [CodeGenerateVisitor(state)] *)
Definition CodeGenerateVisitor_new (state : State) : CodeGenerateVisitor :=
  mkVisitor state ScopeNameList_new [] nullptr.

Definition set_scope_name_list (snl : ScopeNameList) (v : CodeGenerateVisitor)
  : CodeGenerateVisitor :=
  mkVisitor (state_ v) snl (names_register_ v) (func_ v).

Definition set_names_register (l : list NameReg) (v : CodeGenerateVisitor)
  : CodeGenerateVisitor :=
  mkVisitor (state_ v) (scope_name_list_ v) l (func_ v).

(** The function object at address [a] is overwritten with [f]. *)
Definition set_function (a : nat) (f : Function) (v : CodeGenerateVisitor)
  : CodeGenerateVisitor :=
  mkVisitor (<[a := f]> (state_ v)) (scope_name_list_ v)
            (names_register_ v) (func_ v).

(** [*func_]: the function the visitor is generating code for. *)
Definition current_function (v : CodeGenerateVisitor) : outcome Function :=
  match func_ v with
  | Some a =>
      match state_ v !! a with
      | Some f => Ok f
      | None => Fault NullDereference
      end
  | None => Fault NullDereference
  end.

(** [func_->m(...)] for a method [m] that reads the function. *)
Definition func_get {A : Type} (m : Function -> A) (v : CodeGenerateVisitor)
  : outcome A :=
  let* f := current_function v in Ok (m f).

(** [func_->m(...)] for a method [m] that returns a value and changes the
    function in place. *)
Definition func_call {A : Type} (m : Function -> A * Function)
    (v : CodeGenerateVisitor) : outcome (A * CodeGenerateVisitor) :=
  let* f := current_function v in
  match func_ v with
  | Some a => Ok (fst (m f), set_function a (snd (m f)) v)
  | None => Fault NullDereference
  end.

(** [func_->m(...)] for a method [m] returning nothing. *)
Definition func_do (m : Function -> Function) (v : CodeGenerateVisitor)
  : outcome CodeGenerateVisitor :=
  let* r := func_call (fun f => (tt, m f)) v in Ok (snd r).

(** [if (child) child->Accept(this)] *)
Definition visit_opt (visit : SyntaxTree -> CodeGenerateVisitor -> outcome CodeGenerateVisitor)
    (child : option SyntaxTree) (v : CodeGenerateVisitor)
  : outcome CodeGenerateVisitor :=
  match child with
  | Some t => visit t v
  | None => Ok v
  end.

(** [for (auto &s : statements_) s->Accept(this)] *)
Definition visit_each (visit : SyntaxTree -> CodeGenerateVisitor -> outcome CodeGenerateVisitor)
  : list SyntaxTree -> CodeGenerateVisitor -> outcome CodeGenerateVisitor :=
  fix go (l : list SyntaxTree) (v : CodeGenerateVisitor) :=
    match l with
    | [] => Ok v
    | s :: rest => let* v1 := visit s v in go rest v1
    end.

(** [Visit] of a [Chunk] *)
Definition Visit_Chunk (visit : SyntaxTree -> CodeGenerateVisitor -> outcome CodeGenerateVisitor)
    (block : SyntaxTree) (module : pointer) (v : CodeGenerateVisitor)
  : outcome CodeGenerateVisitor :=
  let '(func, st) := NewFunction (state_ v) in
  let st := alter (SetBaseInfo module 0) func st in
  let st := alter (SetSuperior (func_ v)) func st in
  let v1 := mkVisitor st (scope_name_list_ v) (names_register_ v) (Some func) in
  visit block v1.

(** [Visit] of a [Block]; the scope [current] is destroyed when the handler
    returns. *)
Definition Visit_Block (visit : SyntaxTree -> CodeGenerateVisitor -> outcome CodeGenerateVisitor)
    (statements : list SyntaxTree) (return_stmt : option SyntaxTree)
    (v : CodeGenerateVisitor) : outcome CodeGenerateVisitor :=
  let* opened := NameScope_new (scope_name_list_ v) (func_ v) in
  let current := fst opened in
  let v := set_scope_name_list (snd opened) v in
  let* reg := func_get GetNextRegister v in
  let* v := visit_each visit statements v in
  let* v := visit_opt visit return_stmt v in
  let* v := func_do (SetNextRegister reg) v in
  let* v := func_do (AddInstruction (ACode OpType_SetTop reg) 0) v in
  Ok (set_scope_name_list (NameScope_delete current (scope_name_list_ v)) v).

(** The loop of [Visit] of a [LocalNameListStatement] that moves each
    initializer into the register of its name. *)
Fixpoint move_names (names : list NameReg) (exp_reg : Z)
    (v : CodeGenerateVisitor) : outcome CodeGenerateVisitor :=
  match names with
  | [] => Ok v
  | n :: rest =>
      let* v1 := func_do (AddInstruction
                            (ABCode OpType_Move (register_ n) exp_reg)
                            (Lex.line_ (token_ n))) v in
      move_names rest (exp_reg + 1) v1
  end.

(** [Visit] of a [LocalNameListStatement] *)
Definition Visit_LocalNameListStatement
    (visit : SyntaxTree -> CodeGenerateVisitor -> outcome CodeGenerateVisitor)
    (name_list : SyntaxTree) (exp_list : option SyntaxTree)
    (v : CodeGenerateVisitor) : outcome CodeGenerateVisitor :=
  let* v := visit name_list v in
  let* reg := func_get GetNextRegister v in
  let* reg_count := func_get GetRegisterCount v in
  let* v := visit_opt visit exp_list v in
  let names := Z.of_nat (length (names_register_ v)) in
  let* v := func_do (SetRegisterCount (reg_count + names)) v in
  let* v := move_names (names_register_ v) reg v in
  let v := set_names_register [] v in
  let* v := func_do (SetNextRegister reg) v in
  func_do (AddInstruction (ACode OpType_SetTop reg) 0) v.

(** [Visit] of a [Terminator] *)
Definition Visit_Terminator (t : TokenDetail) (v : CodeGenerateVisitor)
  : outcome CodeGenerateVisitor :=
  let* r :=
    match Lex.token_ t with
    | Token_Number => func_call (AddConstNumber (number_ t)) v
    | Token_String => func_call (AddConstString (str_ t)) v
    | _ => Fault AssertFailure
    end in
  let index := fst r in
  let* a := func_call AllocaNextRegister (snd r) in
  let reg := fst a in
  func_do (AddInstruction (ABCode OpType_LoadConst reg index) (Lex.line_ t)) (snd a).

(** [Visit] of a [NameList] *)
Fixpoint Visit_NameList (names : list TokenDetail) (v : CodeGenerateVisitor)
  : outcome CodeGenerateVisitor :=
  match names with
  | [] => Ok v
  | n :: rest =>
      match Lex.token_ n with
      | Token_Id =>
          let* reg := func_get GetNextRegister v in
          match current_scope_ (scope_name_list_ v) with
          | Some scope =>
              let '(added, reg, snl) :=
                AddScopeName scope (scope_name_list_ v) (str_ n) reg in
              let v := set_scope_name_list snl v in
              let* v := if added
                        then let* a := func_call AllocaNextRegister v in
                             Ok (snd a)
                        else Ok v in
              Visit_NameList rest
                (set_names_register (names_register_ v ++ [mkNameReg reg n]) v)
          | None => Fault NullDereference
          end
      | _ => Fault AssertFailure
      end
  end.

(** [Visit] of a [NormalFuncCall] *)
Definition Visit_NormalFuncCall
    (visit : SyntaxTree -> CodeGenerateVisitor -> outcome CodeGenerateVisitor)
    (caller : SyntaxTree) (args : option SyntaxTree)
    (v : CodeGenerateVisitor) : outcome CodeGenerateVisitor :=
  let* reg := func_get GetNextRegister v in
  let* v := visit caller v in
  let* v := func_do (SetNextRegister (reg + 1)) v in
  let* v := func_do (AddInstruction (ACode OpType_SetTop (reg + 1)) 0) v in
  let* v := visit_opt visit args v in
  func_do (AddInstruction (ACode OpType_Call reg) 0) v.

(** The loop of [Visit] of a [ExpressionList]; [reg] is the local counter. *)
Definition ExpressionList_loop
    (visit : SyntaxTree -> CodeGenerateVisitor -> outcome CodeGenerateVisitor)
  : list SyntaxTree -> Z -> CodeGenerateVisitor -> outcome CodeGenerateVisitor :=
  fix go (l : list SyntaxTree) (reg : Z) (v : CodeGenerateVisitor) :=
    match l with
    | [] => Ok v
    | exp :: rest =>
        let* v1 := func_do (SetNextRegister reg) v in
        let* v2 := func_do (AddInstruction (ACode OpType_SetTop reg) 0) v1 in
        let* v3 := visit exp v2 in
        go rest (reg + 1) v3
    end.

(** [Visit] of a [ExpressionList] *)
Definition Visit_ExpressionList
    (visit : SyntaxTree -> CodeGenerateVisitor -> outcome CodeGenerateVisitor)
    (exp_list : list SyntaxTree) (v : CodeGenerateVisitor)
  : outcome CodeGenerateVisitor :=
  let* reg := func_get GetNextRegister v in
  ExpressionList_loop visit exp_list reg v.

(** [tree->Accept(this)]: the double dispatch to the handler of the node. *)
Fixpoint Visit (t : SyntaxTree) (v : CodeGenerateVisitor)
  : outcome CodeGenerateVisitor :=
  match t with
  | Chunk block module => Visit_Chunk Visit block module v
  | Block statements return_stmt => Visit_Block Visit statements return_stmt v
  | LocalNameListStatement name_list exp_list =>
      Visit_LocalNameListStatement Visit name_list exp_list v
  | Terminator t => Visit_Terminator t v
  | NameList names => Visit_NameList names v
  | NormalFuncCall caller args => Visit_NormalFuncCall Visit caller args v
  | ExpressionList exp_list => Visit_ExpressionList Visit exp_list v
  end.

(** *** Trees the parser hands over

    [well_formed t]: no [Chunk] below the root of [t] (a [Chunk] switches
    the current function), every [Terminator] is a number or a string, and
    every name of a [NameList] is an identifier. *)
Fixpoint well_formed (t : SyntaxTree) : bool :=
  match t with
  | Chunk _ _ => false
  | Block statements return_stmt =>
      forallb well_formed statements &&
      match return_stmt with Some r => well_formed r | None => true end
  | LocalNameListStatement name_list exp_list =>
      well_formed name_list &&
      match exp_list with Some e => well_formed e | None => true end
  | Terminator t =>
      bool_decide (Lex.token_ t = Token_Number \/ Lex.token_ t = Token_String)
  | NameList names =>
      forallb (fun n => bool_decide (Lex.token_ n = Token_Id)) names
  | NormalFuncCall caller args =>
      well_formed caller &&
      match args with Some e => well_formed e | None => true end
  | ExpressionList exp_list => forallb well_formed exp_list
  end.

(** The expressions among the nodes. *)
Definition is_exp (t : SyntaxTree) : bool :=
  match t with
  | Terminator _ | NormalFuncCall _ _ => true
  | _ => false
  end.

Definition is_block (t : SyntaxTree) : bool :=
  match t with
  | Block _ _ => true
  | _ => false
  end.

(** The function the visitor works on: [func_] is the address [a] and
    the object there is [f]. *)
Definition generating (v : CodeGenerateVisitor) (a : nat) (f : Function) : Prop :=
  func_ v = Some a /\ state_ v !! a = Some f.

(** What a run of handlers leaves behind when it takes the visitor from
    [v], generating [f], to [v'], generating [f']: the same function and
    the same innermost scope, instructions only appended, and a register
    count not below the one at the start. *)
Definition lowered (a : nat) (v : CodeGenerateVisitor) (f : Function)
    (v' : CodeGenerateVisitor) (f' : Function) : Prop :=
  generating v' a f' /\
  current_scope_ (scope_name_list_ v') = current_scope_ (scope_name_list_ v) /\
  (exists code, instructions f' = instructions f ++ code) /\
  register_count f <= register_count f'.

(** [Visit t] runs to completion from every visitor that is generating a
    function and, unless [t] is a [Block] (which opens its own scope), is
    inside a scope. *)
Definition runs (t : SyntaxTree) : Prop :=
  forall a v f,
    generating v a f ->
    is_Some (current_scope_ (scope_name_list_ v)) \/ is_block t = true ->
    exists v' f', Visit t v = Ok v' /\ lowered a v f v' f'.

(** [chunk_free t]: there is no [Chunk] in [t]. *)
Fixpoint chunk_free (t : SyntaxTree) : bool :=
  match t with
  | Chunk _ _ => false
  | Block statements return_stmt =>
      forallb chunk_free statements &&
      match return_stmt with Some r => chunk_free r | None => true end
  | LocalNameListStatement name_list exp_list =>
      chunk_free name_list &&
      match exp_list with Some e => chunk_free e | None => true end
  | Terminator _ => true
  | NameList _ => true
  | NormalFuncCall caller args =>
      chunk_free caller &&
      match args with Some e => chunk_free e | None => true end
  | ExpressionList exp_list => forallb chunk_free exp_list
  end.

(** From [v] to [v'] the innermost scope is the same and the name table
    has only been appended to. *)
Definition table_grows (v v' : CodeGenerateVisitor) : Prop :=
  current_scope_ (scope_name_list_ v') = current_scope_ (scope_name_list_ v) /\
  exists extra,
    name_list_ (scope_name_list_ v') =
    name_list_ (scope_name_list_ v) ++ extra.

(** From [v], generating [f] at address [a], to [v'], generating [f']:
    [func_] still points to [a], no function was created, every other
    function is as it was, and [f'] has the superior, module and line of
    [f]. *)
Definition same_frame (a : nat) (v : CodeGenerateVisitor) (f : Function)
    (v' : CodeGenerateVisitor) (f' : Function) : Prop :=
  func_ v' = Some a /\
  state_ v' = <[a := f']> (state_ v) /\
  superior f' = superior f /\
  Func.module_ f' = Func.module_ f /\
  Func.line_ f' = Func.line_ f.


(** Whatever function [v] is generating at [a], [v'] is generating a
    function at [a] within the same frame. *)
Definition frame_kept (a : nat) (v v' : CodeGenerateVisitor) : Prop :=
  forall f, generating v a f -> exists f', same_frame a v f v' f'.

End Gen.

(** * Properties of the scope chain *)

Section ScopeChain.

Import Scope.

(** Induction along [previous_], from the outermost scope inwards. *)
Lemma NameScope_chain_ind (P : NameScope -> Prop) :
  (forall st ow, P (mkNameScope None st ow)) ->
  (forall p, P p -> forall st ow, P (mkNameScope (Some p) st ow)) ->
  forall this, P this.
Proof.
  intros Hout Hin. fix IH 1. intros [[p|] st ow]; [apply Hin, IH | apply Hout].
Qed.

Lemma scan_app name l1 l2 :
  scan name (l1 ++ l2) =
  match scan name l1 with
  | Some r => Some r
  | None => scan name l2
  end.
Proof.
  induction l1 as [|e l1 IH]; simpl; [done|].
  destruct (decide (name_ e = name)); [done | apply IH].
Qed.

Lemma scan_Some name l r :
  scan name l = Some r ->
  exists i e, l !! i = Some e /\ name_ e = name /\ register_ e = r /\
    forall j e', (j < i)%nat -> l !! j = Some e' -> name_ e' <> name.
Proof.
  revert r. induction l as [|e l IH]; simpl; intros r H; [done|].
  destruct (decide (name_ e = name)) as [Heq|Hne].
  - exists 0%nat, e. repeat split; [done | congruence |]. intros j e' Hj. lia.
  - destruct (IH r H) as (i & e0 & Hi & Hn & Hr & Hfirst).
    exists (S i), e0. repeat split; try done.
    intros [|j] e' Hj Hl; simpl in Hl; [congruence|].
    apply (Hfirst j); [lia | done].
Qed.

Lemma scan_None name l :
  scan name l = None <-> forall e, e ∈ l -> name_ e <> name.
Proof.
  induction l as [|e l IH]; simpl.
  - split; [intros _ e He; inversion He | done].
  - destruct (decide (name_ e = name)) as [Heq|Hne].
    + split; [done | intros H; exfalso; apply (H e); [left | done]].
    + rewrite IH. split.
      * intros H e' He'. apply elem_of_cons in He' as [->|He']; auto.
      * intros H e' He'. apply H. by right.
Qed.

Lemma IsBelongsToScope_absent this nl name :
  name ∉ map name_ (name_list_ nl) -> IsBelongsToScope this nl name = None.
Proof.
  intros Hnot. unfold IsBelongsToScope. apply scan_None.
  intros e He Heq. apply Hnot. rewrite <- Heq.
  apply list_elem_of_In, in_map, list_elem_of_In.
  apply list_elem_of_lookup in He as [i Hi].
  rewrite lookup_drop in Hi. by eapply list_elem_of_lookup_2.
Qed.

Lemma GetBlongsToScope_absent this nl name :
  name ∉ map name_ (name_list_ nl) ->
  GetBlongsToScope this nl name = (None, nullptr).
Proof.
  intros Hnot. induction this as [st ow|p IH st ow] using NameScope_chain_ind;
    simpl; rewrite (IsBelongsToScope_absent _ _ _ Hnot); [done | apply IH].
Qed.

Lemma run_app ops1 ops2 nl :
  run (ops1 ++ ops2) nl = let* nl1 := run ops1 nl in run ops2 nl1.
Proof.
  revert nl. induction ops1 as [|op ops1 IH]; intros nl; simpl; [done|].
  destruct (step op nl); simpl; [apply IH | done].
Qed.

Lemma run_cons op ops nl :
  run (op :: ops) nl = let* nl1 := step op nl in run ops nl1.
Proof. reflexivity. Qed.

Lemma open_scope_inv owner nl nl1 :
  step (open_scope owner) nl = Ok nl1 ->
  exists this,
    nl1 = mkScopeNameList (name_list_ nl) (Some this) /\
    previous_ this = current_scope_ nl /\
    start_ this = length (name_list_ nl).
Proof.
  unfold step, NameScope_new. destruct owner as [a|]; simpl.
  - intros [= <-]. by eexists.
  - destruct (current_scope_ nl) as [p|] eqn:Hp; simpl; [|done].
    intros [= <-]. by eexists.
Qed.

Lemma close_after_growth this nl extra :
  previous_ this = current_scope_ nl ->
  start_ this = length (name_list_ nl) ->
  NameScope_delete this
    (mkScopeNameList (name_list_ nl ++ extra) (Some this)) = nl.
Proof.
  intros Hprev Hstart. unfold NameScope_delete. simpl.
  rewrite Hprev, Hstart, resize_app_le, resize_all by lia. by destruct nl.
Qed.

(** A balanced sequence run inside a scope only grows the table, and ends
    in the scope it started in. *)
Lemma run_balanced ops :
  Balanced ops ->
  forall nl s, current_scope_ nl = Some s ->
  exists extra,
    run ops nl = Ok (mkScopeNameList (name_list_ nl ++ extra) (Some s)).
Proof.
  induction 1 as [|name reg ops _ IH|owner body ops _ IHbody _ IHops];
    intros nl s Hs.
  - exists []. simpl. rewrite app_nil_r, <- Hs. by destruct nl.
  - simpl. rewrite Hs. simpl. unfold AddScopeName.
    destruct (IsBelongsToScope s nl name); simpl.
    + by apply IH.
    + destruct (IH (mkScopeNameList
                      (name_list_ nl ++ [mkScopeName name reg])
                      (current_scope_ nl)) s Hs) as [extra Hrun].
      exists ([mkScopeName name reg] ++ extra).
      rewrite Hrun. cbn [name_list_]. by rewrite <- app_assoc.
  - assert (exists nl1, step (open_scope owner) nl = Ok nl1) as [nl1 Hopen].
    { unfold step, NameScope_new. rewrite Hs.
      destruct owner; simpl; by eexists. }
    rewrite run_cons, Hopen. cbn [bind].
    destruct (open_scope_inv _ _ _ Hopen) as (this & -> & Hprev & Hstart).
    rewrite run_app.
    destruct (IHbody (mkScopeNameList (name_list_ nl) (Some this)) this
                eq_refl) as [grown Hbody].
    rewrite Hbody.
    cbn [bind name_list_]. rewrite run_cons. cbn [step current_scope_ bind].
    rewrite (close_after_growth this nl grown Hprev Hstart).
    by apply IHops.
Qed.

Lemma chain_unfold this :
  chain this = this :: match previous_ this with
                       | Some p => chain p
                       | None => []
                       end.
Proof. by destruct this. Qed.

Lemma GetBlongsToScope_unfold this nl name :
  GetBlongsToScope this nl name =
  match IsBelongsToScope this nl name with
  | Some _ => (Some this, owner_ this)
  | None =>
      match previous_ this with
      | Some p => GetBlongsToScope p nl name
      | None => (None, nullptr)
      end
  end.
Proof. by destruct this. Qed.

(** The walk stops at the first scope of the chain that holds the name. *)
Lemma GetBlongsToScope_found inner :
  forall this nl name s outer,
  chain this = inner ++ s :: outer ->
  (forall t, t ∈ inner -> IsBelongsToScope t nl name = None) ->
  is_Some (IsBelongsToScope s nl name) ->
  GetBlongsToScope this nl name = (Some s, owner_ s).
Proof.
  induction inner as [|t inner IH]; intros this nl name s outer Hch Hin Hs;
    rewrite chain_unfold in Hch; rewrite GetBlongsToScope_unfold.
  - injection Hch as -> _. by destruct Hs as [r ->].
  - injection Hch as -> Hch. rewrite Hin by left.
    destruct (previous_ t) as [p|]; [|by destruct inner].
    eapply IH; [done | | done]. intros u Hu. apply Hin. by right.
Qed.

Lemma GetBlongsToScope_spec this nl name :
  (exists inner s outer,
     chain this = inner ++ s :: outer /\
     (forall t, t ∈ inner -> IsBelongsToScope t nl name = None) /\
     is_Some (IsBelongsToScope s nl name) /\
     GetBlongsToScope this nl name = (Some s, owner_ s)) \/
  ((forall t, t ∈ chain this -> IsBelongsToScope t nl name = None) /\
   GetBlongsToScope this nl name = (None, nullptr)).
Proof.
  induction this as [st ow|p IH st ow] using NameScope_chain_ind;
    rewrite GetBlongsToScope_unfold, chain_unfold; cbn [previous_ owner_].
  - destruct (IsBelongsToScope _ nl name) as [r|] eqn:Hr.
    + left. exists [], (mkNameScope None st ow), [].
      repeat split; [by intros t Ht; inversion Ht | by rewrite Hr; eexists].
    + right. split; [|done]. intros t Ht. by apply list_elem_of_singleton in Ht as ->.
  - destruct (IsBelongsToScope _ nl name) as [r|] eqn:Hr.
    + left. exists [], (mkNameScope (Some p) st ow), (chain p).
      repeat split; [by intros t Ht; inversion Ht | by rewrite Hr; eexists].
    + destruct IH as [(inner & s & outer & Hch & Hin & Hs & HG)|[Hall HG]].
      * left. exists (mkNameScope (Some p) st ow :: inner), s, outer.
        rewrite Hch. repeat split; [|done..].
        intros t Ht. apply elem_of_cons in Ht as [->|Ht]; auto.
      * right. split; [|done].
        intros t Ht. apply elem_of_cons in Ht as [->|Ht]; auto.
Qed.

Lemma scan_drop_snoc q n l p r :
  p <> q ->
  scan q (drop n (l ++ [mkScopeName p r])) = scan q (drop n l).
Proof.
  intros Hne. rewrite drop_app, scan_app.
  destruct (scan q (drop n l)); [done|].
  destruct (n - length l)%nat; simpl; [|by rewrite drop_nil].
  by destruct (decide (p = q)).
Qed.

Lemma AddScopeName_other this nl p reg q t :
  p <> q ->
  IsBelongsToScope t (snd (AddScopeName this nl p reg)) q =
  IsBelongsToScope t nl q.
Proof.
  intros Hne. unfold AddScopeName.
  destruct (IsBelongsToScope this nl p); [done|].
  unfold IsBelongsToScope. simpl. by apply scan_drop_snoc.
Qed.

Lemma GetBlongsToScope_ext nl nl' name :
  (forall t, IsBelongsToScope t nl' name = IsBelongsToScope t nl name) ->
  forall this, GetBlongsToScope this nl' name = GetBlongsToScope this nl name.
Proof.
  intros Hext this.
  induction this as [st ow|p IH st ow] using NameScope_chain_ind;
    rewrite !GetBlongsToScope_unfold, Hext; cbn [previous_]; [done|].
  by rewrite IH.
Qed.

Lemma IsBelongsToScope_entry this nl name r :
  IsBelongsToScope this nl name = Some r ->
  exists i, (start_ this <= i)%nat /\
            name_list_ nl !! i = Some (mkScopeName name r).
Proof.
  unfold IsBelongsToScope. intros Hr.
  apply scan_Some in Hr as (i & e & Hi & Hn & Hreg & _).
  rewrite lookup_drop in Hi. exists (start_ this + i)%nat.
  split; [lia|]. rewrite Hi. destruct e; simpl in *; congruence.
Qed.

Lemma IsBelongsToScope_None_before this nl name i e :
  IsBelongsToScope this nl name = None ->
  name_list_ nl !! i = Some e ->
  name_ e = name ->
  (i < start_ this)%nat.
Proof.
  unfold IsBelongsToScope. intros Hnone Hi Hn.
  destruct (decide (i < start_ this)%nat) as [|Hge]; [done|].
  exfalso. apply (proj1 (scan_None _ _) Hnone e); [|done].
  apply list_elem_of_lookup. exists (i - start_ this)%nat.
  rewrite lookup_drop. by replace (start_ this + (i - start_ this))%nat
    with i by lia.
Qed.

(** C1 (scope truncation).  A scope is opened, a balanced sequence of
    [open_scope]/[declare]/[close_scope] runs inside it, and the scope is
    closed.  The run reaches the close; after it the table has the entries,
    hence the length, it had before the open, [current_scope_] is the scope
    that was innermost before the open, and a name with no binding in the
    table before the open (declared only inside) resolves to absent from
    any scope. *)
Theorem scope_truncation nl owner body nl1 :
  Balanced body ->
  step (open_scope owner) nl = Ok nl1 ->
  exists nl2 nl3,
    run body nl1 = Ok nl2 /\
    step close_scope nl2 = Ok nl3 /\
    run (open_scope owner :: body ++ [close_scope]) nl = Ok nl3 /\
    length (name_list_ nl3) = length (name_list_ nl) /\
    name_list_ nl3 = name_list_ nl /\
    current_scope_ nl3 = current_scope_ nl /\
    forall name,
      name ∉ map name_ (name_list_ nl) ->
      forall s, GetBlongsToScope s nl3 name = (None, nullptr).
Proof.
  intros Hbal Hopen.
  destruct (open_scope_inv _ _ _ Hopen) as (this & -> & Hprev & Hstart).
  destruct (run_balanced body Hbal
              (mkScopeNameList (name_list_ nl) (Some this)) this eq_refl)
    as [grown Hbody].
  cbn [name_list_] in Hbody.
  exists (mkScopeNameList (name_list_ nl ++ grown) (Some this)), nl.
  assert (step close_scope
            (mkScopeNameList (name_list_ nl ++ grown) (Some this)) = Ok nl)
    as Hclose.
  { cbn [step current_scope_]. by rewrite close_after_growth. }
  repeat split; try done.
  - rewrite run_cons, Hopen. cbn [bind]. rewrite run_app, Hbody. cbn [bind].
    by rewrite run_cons, Hclose.
  - intros name Hname s. by apply GetBlongsToScope_absent.
Qed.

Lemma scope_truncation_witness :
  exists nl2 nl3,
    run [declare (Some 5%nat) 0; open_scope nullptr;
         declare (Some 6%nat) 1; close_scope]
        (mkScopeNameList [] (Some (mkNameScope None 0 (Some 0%nat))))
      = Ok nl2 /\
    step close_scope nl2 = Ok nl3 /\
    run (open_scope (Some 0%nat) ::
         [declare (Some 5%nat) 0; open_scope nullptr;
          declare (Some 6%nat) 1; close_scope] ++ [close_scope])
        ScopeNameList_new = Ok nl3 /\
    length (name_list_ nl3) = length (name_list_ ScopeNameList_new) /\
    name_list_ nl3 = name_list_ ScopeNameList_new /\
    current_scope_ nl3 = current_scope_ ScopeNameList_new /\
    forall name,
      name ∉ map name_ (name_list_ ScopeNameList_new) ->
      forall s, GetBlongsToScope s nl3 name = (None, nullptr).
Proof.
  apply (scope_truncation ScopeNameList_new (Some 0%nat)
           [declare (Some 5%nat) 0; open_scope nullptr;
            declare (Some 6%nat) 1; close_scope]).
  - apply Balanced_declare.
    apply (Balanced_scope nullptr [declare (Some 6%nat) 1] []).
    + apply Balanced_declare, Balanced_nil.
    + apply Balanced_nil.
  - reflexivity.
Defined.

(** C2 (resolution).  [GetBlongsToScope] returns the first scope of the
    chain, walking outwards from [this], that holds the name, with that
    scope's owner: the binding is an entry of the table at or after the
    scope's [start_] and before the [start_] of every scope walked before
    it.  It returns the null pair exactly when no scope of the chain holds
    the name.  And a name held by a scope [outer] further out and by none
    of the scopes before it resolves to [outer] and to [outer]'s owner,
    which differs from the current function [func] whenever [outer]
    belongs to another function. *)
Theorem resolve_first_match this nl name :
  (forall found func,
     GetBlongsToScope this nl name = (found, func) ->
     match found with
     | Some s =>
         exists inner outer,
           chain this = inner ++ s :: outer /\
           (forall t, t ∈ inner -> IsBelongsToScope t nl name = None) /\
           (exists i r,
              IsBelongsToScope s nl name = Some r /\
              name_list_ nl !! i = Some (mkScopeName name r) /\
              (start_ s <= i)%nat /\
              forall t, t ∈ inner -> (i < start_ t)%nat) /\
           func = owner_ s
     | None => func = nullptr
     end) /\
  (GetBlongsToScope this nl name = (None, nullptr) <->
   forall t, t ∈ chain this -> IsBelongsToScope t nl name = None) /\
  (forall inner outer rest func,
     chain this = inner ++ outer :: rest ->
     (forall t, t ∈ inner -> IsBelongsToScope t nl name = None) ->
     is_Some (IsBelongsToScope outer nl name) ->
     owner_ outer <> func ->
     GetBlongsToScope this nl name = (Some outer, owner_ outer) /\
     snd (GetBlongsToScope this nl name) <> func).
Proof.
  split; [|split].
  - intros found func HG.
    destruct (GetBlongsToScope_spec this nl name)
      as [(inner & s & outer & Hch & Hin & Hs & HG')|[Hall HG']];
      rewrite HG' in HG; injection HG as <- <-; [|done].
    exists inner, outer. split; [done|]. split; [done|]. split; [|done].
    destruct Hs as [r Hr].
    destruct (IsBelongsToScope_entry _ _ _ _ Hr) as (i & Hi & He).
    exists i, r. split; [done|]. split; [done|]. split; [done|].
    intros t Ht. by eapply IsBelongsToScope_None_before; [apply Hin | |].
  - split.
    + intros HG.
      destruct (GetBlongsToScope_spec this nl name)
        as [(inner & s & outer & Hch & Hin & Hs & HG')|[Hall HG']];
        [congruence | done].
    + intros Hall.
      destruct (GetBlongsToScope_spec this nl name)
        as [(inner & s & outer & Hch & Hin & Hs & HG')|[_ HG']]; [|done].
      destruct Hs as [r Hr]. rewrite Hall in Hr; [done|].
      rewrite Hch. apply elem_of_app. right. left.
  - intros inner outer rest func Hch Hin Hs Hne.
    rewrite (GetBlongsToScope_found inner this nl name outer rest Hch Hin Hs).
    done.
Qed.

Lemma resolve_first_match_witness :
  let outer := mkNameScope None 0 (Some 0%nat) in
  let inner := mkNameScope (Some outer) 1 (Some 1%nat) in
  let nl := mkScopeNameList [mkScopeName (Some 5%nat) 0] (Some inner) in
  GetBlongsToScope inner nl (Some 5%nat) = (Some outer, owner_ outer) /\
  snd (GetBlongsToScope inner nl (Some 5%nat)) <> Some 1%nat.
Proof.
  intros outer inner nl.
  apply (proj2 (proj2 (resolve_first_match inner nl (Some 5%nat)))
           [inner] outer [] (Some 1%nat)).
  - reflexivity.
  - intros t Ht. apply list_elem_of_singleton in Ht as ->. reflexivity.
  - eexists. reflexivity.
  - discriminate.
Defined.

(** C9 (inherited owner).  A scope constructed without an owner takes the
    owner of the innermost existing scope, and the construction succeeds
    whenever such a scope exists; with no owner and no existing scope the
    constructor reads [previous_->owner_] through a null pointer and the
    run ends there. *)
Theorem open_scope_inherits_owner nl :
  (forall p,
     current_scope_ nl = Some p ->
     exists this nl',
       NameScope_new nl nullptr = Ok (this, nl') /\
       owner_ this = owner_ p /\
       previous_ this = Some p /\
       start_ this = length (name_list_ nl) /\
       current_scope_ nl' = Some this) /\
  (current_scope_ nl = None ->
   NameScope_new nl nullptr = Fault NullDereference).
Proof.
  unfold NameScope_new. split.
  - intros p Hp. rewrite Hp. simpl. by eexists _, _.
  - by intros ->.
Qed.

Lemma open_scope_inherits_owner_witness :
  (exists this nl',
     NameScope_new
       (mkScopeNameList [] (Some (mkNameScope None 0 (Some 3%nat)))) nullptr
       = Ok (this, nl') /\
     owner_ this = Some 3%nat /\
     previous_ this = Some (mkNameScope None 0 (Some 3%nat)) /\
     start_ this = 0%nat /\
     current_scope_ nl' = Some this) /\
  NameScope_new ScopeNameList_new nullptr = Fault NullDereference.
Proof.
  split.
  - apply (proj1 (open_scope_inherits_owner
                    (mkScopeNameList [] (Some (mkNameScope None 0 (Some 3%nat)))))
             (mkNameScope None 0 (Some 3%nat))).
    reflexivity.
  - apply (proj2 (open_scope_inherits_owner ScopeNameList_new)). reflexivity.
Defined.

(** C10 (names are pointers).  A lookup finds a binding only through an
    entry whose stored [String *] is the queried pointer, and returns that
    entry's register.  Two different pointers are different names even
    when the [String] objects they lead to hold the same text: declaring
    [p] creates no binding for [q], neither in the scope nor along the
    chain, and [q] can still be declared as a new name. *)
Theorem names_compared_by_pointer (heap : StringHeap) this nl :
  (forall q r,
     IsBelongsToScope this nl q = Some r ->
     exists i, (start_ this <= i)%nat /\
               name_list_ nl !! i = Some (mkScopeName q r)) /\
  (forall p q reg reg',
     p <> q ->
     text heap p = text heap q ->
     IsBelongsToScope this nl q = None ->
     let nl' := snd (AddScopeName this nl p reg) in
     IsBelongsToScope this nl' q = None /\
     GetBlongsToScope this nl' q = GetBlongsToScope this nl q /\
     fst (fst (AddScopeName this nl' q reg')) = true).
Proof.
  split.
  - intros q r Hq. by apply IsBelongsToScope_entry.
  - intros p q reg reg' Hne _ Hq nl'.
    assert (IsBelongsToScope this nl' q = None) as Hq'.
    { unfold nl'. by rewrite AddScopeName_other. }
    repeat split; [done | |].
    + apply GetBlongsToScope_ext. intros t.
      by apply AddScopeName_other.
    + unfold AddScopeName at 1. by rewrite Hq'.
Qed.

Lemma names_compared_by_pointer_witness :
  let heap := ["x"%string; "x"%string] in
  let this := mkNameScope None 0 (Some 0%nat) in
  let nl := mkScopeNameList [] (Some this) in
  let nl' := snd (AddScopeName this nl (Some 0%nat) 7) in
  IsBelongsToScope this nl' (Some 1%nat) = None /\
  GetBlongsToScope this nl' (Some 1%nat)
    = GetBlongsToScope this nl (Some 1%nat) /\
  fst (fst (AddScopeName this nl' (Some 1%nat) 8)) = true.
Proof.
  intros heap this nl.
  apply (proj2 (names_compared_by_pointer heap this nl)
           (Some 0%nat) (Some 1%nat) 7 8).
  - discriminate.
  - reflexivity.
  - reflexivity.
Defined.

End ScopeChain.

(** * Properties of the lowering *)

Section Lowering.

Import Scope Func Lex Gen.

(** The chunk [local a = 1]: one constant, a load-constant into the
    temporary register 1, a move into the register 0 of [a], and the
    set-stack-top instructions of the statement and of the block. *)
Example lower_local_a :
  let a := mkTokenDetail Token_Id 0 (Some 7%nat) 1 in
  let one := Terminator (mkTokenDetail Token_Number 1 nullptr 1) in
  Visit (Chunk (Block [LocalNameListStatement (NameList [a])
                         (Some (ExpressionList [one]))] None) nullptr)
        (CodeGenerateVisitor_new []) =
  Ok (mkVisitor
        [mkFunction 0 2 [ConstNumber 1]
           [(ACode OpType_SetTop 1, 0); (ABCode OpType_LoadConst 1 0, 1);
            (ABCode OpType_Move 0 1, 1); (ACode OpType_SetTop 1, 0);
            (ACode OpType_SetTop 0, 0)]
           nullptr nullptr 0]
        ScopeNameList_new [] (Some 0%nat)).
Proof. reflexivity. Qed.

(** The chunk [local a, b = 1, 2]: two constants, loaded into the
    consecutive temporaries 2 and 3, then moved into [a] and [b] in the
    order of declaration. *)
Example lower_local_a_b :
  let a := mkTokenDetail Token_Id 0 (Some 7%nat) 1 in
  let b := mkTokenDetail Token_Id 0 (Some 8%nat) 1 in
  let num n := Terminator (mkTokenDetail Token_Number n nullptr 1) in
  Visit (Chunk (Block [LocalNameListStatement (NameList [a; b])
                         (Some (ExpressionList [num 1; num 2]))] None) nullptr)
        (CodeGenerateVisitor_new []) =
  Ok (mkVisitor
        [mkFunction 0 4 [ConstNumber 1; ConstNumber 2]
           [(ACode OpType_SetTop 2, 0); (ABCode OpType_LoadConst 2 0, 1);
            (ACode OpType_SetTop 3, 0); (ABCode OpType_LoadConst 3 1, 1);
            (ABCode OpType_Move 0 2, 1); (ABCode OpType_Move 1 3, 1);
            (ACode OpType_SetTop 2, 0); (ACode OpType_SetTop 0, 0)]
           nullptr nullptr 0]
        ScopeNameList_new [] (Some 0%nat)).
Proof. reflexivity. Qed.

(** A call with one argument in a block: the callee goes to register 0,
    set-stack-top 1 fixes the base of the arguments, the argument is
    loaded into register 1, the call is addressed at register 0, and the
    block's set-stack-top gives the registers back. *)
Example lower_call :
  let str s := Terminator (mkTokenDetail Token_String 0 (Some s) 1) in
  let one := Terminator (mkTokenDetail Token_Number 1 nullptr 1) in
  Visit (Chunk (Block [NormalFuncCall (str 9%nat)
                         (Some (ExpressionList [one]))] None) nullptr)
        (CodeGenerateVisitor_new []) =
  Ok (mkVisitor
        [mkFunction 0 2 [ConstString (Some 9%nat); ConstNumber 1]
           [(ABCode OpType_LoadConst 0 0, 1); (ACode OpType_SetTop 1, 0);
            (ACode OpType_SetTop 1, 0); (ABCode OpType_LoadConst 1 1, 1);
            (ACode OpType_Call 0, 0); (ACode OpType_SetTop 0, 0)]
           nullptr nullptr 0]
        ScopeNameList_new [] (Some 0%nat)).
Proof. reflexivity. Qed.

(** An identifier where a literal is expected trips the handler's
    assertion, and a block visited before any chunk reads through the null
    [func_]. *)
Example lower_faults :
  Visit (Chunk (Block [Terminator (mkTokenDetail Token_Id 0 (Some 7%nat) 1)]
                  None) nullptr)
        (CodeGenerateVisitor_new []) = Fault AssertFailure /\
  Visit (Block [] None) (CodeGenerateVisitor_new []) = Fault NullDereference.
Proof. split; reflexivity. Qed.

Lemma SyntaxTree_nested_ind (P : SyntaxTree -> Prop) :
  (forall b m, P b -> P (Chunk b m)) ->
  (forall ss r, Forall P ss -> (forall t, r = Some t -> P t) -> P (Block ss r)) ->
  (forall n e, P n -> (forall t, e = Some t -> P t) ->
               P (LocalNameListStatement n e)) ->
  (forall tok, P (Terminator tok)) ->
  (forall names, P (NameList names)) ->
  (forall c a, P c -> (forall t, a = Some t -> P t) -> P (NormalFuncCall c a)) ->
  (forall es, Forall P es -> P (ExpressionList es)) ->
  forall t, P t.
Proof.
  intros HChunk HBlock HLocal HTerm HNames HCall HExps.
  fix IH 1. intros [b m|ss r|n e|tok|names|c a|es].
  - apply HChunk, IH.
  - apply HBlock.
    + induction ss as [|x ss IHss]; constructor; [apply IH | apply IHss].
    + destruct r as [u|]; intros t' [= <-]. apply IH.
  - apply HLocal; [apply IH|].
    destruct e as [u|]; intros t' [= <-]. apply IH.
  - apply HTerm.
  - apply HNames.
  - apply HCall; [apply IH|].
    destruct a as [u|]; intros t' [= <-]. apply IH.
  - apply HExps.
    induction es as [|x es IHes]; constructor; [apply IH | apply IHes].
Qed.

Lemma func_get_ok {A : Type} (m : Function -> A) v a f :
  generating v a f -> func_get m v = Ok (m f).
Proof.
  intros [Ha Hf]. unfold func_get, current_function. by rewrite Ha, Hf.
Qed.

Lemma func_call_ok {A : Type} (m : Function -> A * Function) v a f :
  generating v a f ->
  func_call m v = Ok (fst (m f), set_function a (snd (m f)) v).
Proof.
  intros [Ha Hf]. unfold func_call, current_function. by rewrite Ha, Hf.
Qed.

Lemma func_do_ok (m : Function -> Function) v a f :
  generating v a f -> func_do m v = Ok (set_function a (m f) v).
Proof.
  intros Hg. unfold func_do.
  by rewrite (func_call_ok (fun f => (tt, m f)) v a f Hg).
Qed.

Lemma generating_set_function v a f g :
  generating v a f -> generating (set_function a g v) a g.
Proof.
  intros [Ha Hf]. split; [done|]. simpl.
  apply list_lookup_insert_eq. by eapply lookup_lt_Some.
Qed.

Lemma generating_inj v a f a' f' :
  generating v a f -> generating v a' f' -> a = a' /\ f = f'.
Proof. intros [Ha Hf] [Ha' Hf']. split; congruence. Qed.

Lemma generating_scope v a f snl :
  generating v a f -> generating (set_scope_name_list snl v) a f.
Proof. done. Qed.

Lemma generating_names v a f l :
  generating v a f -> generating (set_names_register l v) a f.
Proof. done. Qed.

Lemma lowered_refl a v f : generating v a f -> lowered a v f v f.
Proof.
  intros Hg. repeat split; try apply Hg; [|lia].
  exists []. by rewrite app_nil_r.
Qed.

Lemma lowered_trans a v f v1 f1 v2 f2 :
  lowered a v f v1 f1 -> lowered a v1 f1 v2 f2 -> lowered a v f v2 f2.
Proof.
  intros (_ & Hs1 & [c1 Hc1] & Hr1) (Hg2 & Hs2 & [c2 Hc2] & Hr2).
  repeat split; try apply Hg2; [congruence | | lia].
  exists (c1 ++ c2). by rewrite Hc2, Hc1, app_assoc.
Qed.

Lemma lowered_set_function a v f g :
  generating v a f ->
  (exists code, instructions g = instructions f ++ code) ->
  register_count f <= register_count g ->
  lowered a v f (set_function a g v) g.
Proof.
  intros Hg Hcode Hcount. split; [by eapply generating_set_function|done].
Qed.

Lemma lowered_SetNextRegister a v f r :
  generating v a f -> lowered a v f (set_function a (SetNextRegister r f) v)
                              (SetNextRegister r f).
Proof.
  intros Hg. apply lowered_set_function; [done | | simpl; lia].
  exists []. simpl. by rewrite app_nil_r.
Qed.

Lemma lowered_AddInstruction a v f i line :
  generating v a f -> lowered a v f (set_function a (AddInstruction i line f) v)
                              (AddInstruction i line f).
Proof.
  intros Hg. apply lowered_set_function; [done | by eexists | simpl; lia].
Qed.

Lemma AddConst_keeps c f :
  next_register (snd (AddConst c f)) = next_register f /\
  register_count (snd (AddConst c f)) = register_count f /\
  instructions (snd (AddConst c f)) = instructions f.
Proof. unfold AddConst. by destruct (index_from c (constants f) 0). Qed.

Lemma set_function_twice a g1 g2 v :
  set_function a g2 (set_function a g1 v) = set_function a g2 v.
Proof.
  unfold set_function. cbn [state_ scope_name_list_ names_register_ func_].
  by rewrite list_insert_insert_eq.
Qed.

(** A literal is loaded into the register that was the stack top. *)
Lemma Visit_Terminator_ok tok v a f :
  generating v a f ->
  Lex.token_ tok = Token_Number \/ Lex.token_ tok = Token_String ->
  exists g index,
    Visit_Terminator tok v = Ok (set_function a g v) /\
    next_register g = next_register f + 1 /\
    register_count g = Z.max (register_count f) (next_register f + 1) /\
    instructions g =
      instructions f ++
      [(ABCode OpType_LoadConst (next_register f) index, Lex.line_ tok)].
Proof.
  intros Hg Htok. unfold Visit_Terminator.
  set (c := match Lex.token_ tok with
            | Token_String => ConstString (str_ tok)
            | _ => ConstNumber (number_ tok)
            end).
  assert (match Lex.token_ tok with
          | Token_Number => func_call (AddConstNumber (number_ tok)) v
          | Token_String => func_call (AddConstString (str_ tok)) v
          | _ => Fault AssertFailure
          end = Ok (fst (AddConst c f), set_function a (snd (AddConst c f)) v))
    as ->.
  { subst c. destruct Htok as [-> | ->]; by apply func_call_ok. }
  destruct (AddConst_keeps c f) as (Hn & Hr & Hi).
  cbn [bind fst snd].
  rewrite (func_call_ok AllocaNextRegister _ a (snd (AddConst c f)))
    by (by eapply generating_set_function).
  cbn [bind fst snd].
  erewrite func_do_ok by (by eapply generating_set_function, generating_set_function).
  rewrite !set_function_twice.
  eexists _, (fst (AddConst c f)). split; [done|].
  simpl. by rewrite Hn, Hr, Hi.
Qed.

Lemma AddScopeName_current this nl name reg :
  current_scope_ (snd (AddScopeName this nl name reg)) = current_scope_ nl.
Proof. unfold AddScopeName. by destruct (IsBelongsToScope this nl name). Qed.

Lemma Visit_NameList_lowered names :
  forallb (fun n => bool_decide (Lex.token_ n = Token_Id)) names = true ->
  forall a v f,
    generating v a f ->
    is_Some (current_scope_ (scope_name_list_ v)) ->
    exists v' f', Visit_NameList names v = Ok v' /\ lowered a v f v' f'.
Proof.
  induction names as [|n names IH]; intros Hwf a v f Hg Hs.
  - exists v, f. split; [done | by apply lowered_refl].
  - simpl in Hwf. apply andb_prop in Hwf as [Hn Hwf].
    apply bool_decide_eq_true in Hn. specialize (IH Hwf).
    destruct Hs as [s Hs]. cbn [Visit_NameList]. rewrite Hn.
    rewrite (func_get_ok GetNextRegister v a f Hg). cbn [bind]. rewrite Hs.
    pose proof (AddScopeName_current s (scope_name_list_ v) (str_ n)
                  (GetNextRegister f)) as Hcur.
    destruct (AddScopeName s (scope_name_list_ v) (str_ n) (GetNextRegister f))
      as [[added reg] snl].
    cbn [snd] in Hcur. destruct added.
    + rewrite (func_call_ok AllocaNextRegister _ a f) by done. cbn [bind snd].
      edestruct (IH a) as (v' & f' & Hrun & Hlow);
        [| | exists v', f'; split; [exact Hrun|]].
      * apply generating_names.
        apply (generating_set_function (set_scope_name_list snl v) a f). done.
      * simpl. rewrite Hcur, Hs. by eexists.
      * eapply lowered_trans; [|exact Hlow].
        split; [by apply (generating_set_function (set_scope_name_list snl v) a f)|].
        split; [simpl; congruence|]. split; [|simpl; lia].
        exists []. simpl. by rewrite app_nil_r.
    + cbn [bind].
      edestruct (IH a) as (v' & f' & Hrun & Hlow);
        [| | exists v', f'; split; [exact Hrun|]].
      * apply generating_names, generating_scope. exact Hg.
      * simpl. rewrite Hcur, Hs. by eexists.
      * eapply lowered_trans; [|exact Hlow].
        split; [done|]. split; [simpl; congruence|]. split; [|lia].
        exists []. by rewrite app_nil_r.
Qed.

Lemma lowered_scope a v f v' f' :
  lowered a v f v' f' ->
  is_Some (current_scope_ (scope_name_list_ v)) ->
  is_Some (current_scope_ (scope_name_list_ v')).
Proof. intros (_ & Hs & _) H. by rewrite Hs. Qed.

Lemma visit_each_lowered ss :
  Forall (fun t => well_formed t = true -> runs t) ss ->
  forallb well_formed ss = true ->
  forall a v f,
    generating v a f ->
    is_Some (current_scope_ (scope_name_list_ v)) ->
    exists v' f', visit_each Visit ss v = Ok v' /\ lowered a v f v' f'.
Proof.
  induction 1 as [|t ss Ht _ IH]; intros Hwf a v f Hg Hs.
  - exists v, f. split; [done | by apply lowered_refl].
  - simpl in Hwf. apply andb_prop in Hwf as [Hwt Hwf].
    destruct (Ht Hwt a v f Hg (or_introl Hs)) as (v1 & f1 & Hrun1 & Hlow1).
    destruct (IH Hwf a v1 f1 (proj1 Hlow1) (lowered_scope _ _ _ _ _ Hlow1 Hs))
      as (v2 & f2 & Hrun2 & Hlow2).
    exists v2, f2. cbn [visit_each]. rewrite Hrun1. cbn [bind].
    split; [exact Hrun2 | by eapply lowered_trans].
Qed.

Lemma visit_opt_lowered o :
  (forall t, o = Some t -> well_formed t = true -> runs t) ->
  match o with Some t => well_formed t | None => true end = true ->
  forall a v f,
    generating v a f ->
    is_Some (current_scope_ (scope_name_list_ v)) ->
    exists v' f', visit_opt Visit o v = Ok v' /\ lowered a v f v' f'.
Proof.
  intros Ho Hwf a v f Hg Hs. destruct o as [t|]; simpl.
  - by apply (Ho t eq_refl Hwf a v f Hg (or_introl Hs)).
  - exists v, f. split; [done | by apply lowered_refl].
Qed.

Lemma ExpressionList_loop_lowered es :
  Forall (fun t => well_formed t = true -> runs t) es ->
  forallb well_formed es = true ->
  forall reg a v f,
    generating v a f ->
    is_Some (current_scope_ (scope_name_list_ v)) ->
    exists v' f',
      ExpressionList_loop Visit es reg v = Ok v' /\ lowered a v f v' f'.
Proof.
  induction 1 as [|t es Ht _ IH]; intros Hwf reg a v f Hg Hs.
  - exists v, f. split; [done | by apply lowered_refl].
  - simpl in Hwf. apply andb_prop in Hwf as [Hwt Hwf].
    cbn [ExpressionList_loop].
    rewrite (func_do_ok _ v a f Hg). cbn [bind].
    pose proof (lowered_SetNextRegister a v f reg Hg) as Hl1.
    rewrite (func_do_ok _ _ a _ (proj1 Hl1)). cbn [bind].
    pose proof (lowered_AddInstruction a _ _ (ACode OpType_SetTop reg) 0
                  (proj1 Hl1)) as Hl2.
    pose proof (lowered_trans _ _ _ _ _ _ _ Hl1 Hl2) as Hl12.
    destruct (Ht Hwt a _ _ (proj1 Hl2)
                 (or_introl (lowered_scope _ _ _ _ _ Hl12 Hs)))
      as (v3 & f3 & Hrun3 & Hl3).
    rewrite Hrun3. cbn [bind].
    pose proof (lowered_trans _ _ _ _ _ _ _ Hl12 Hl3) as Hl123.
    destruct (IH Hwf (reg + 1) a v3 f3 (proj1 Hl3)
                 (lowered_scope _ _ _ _ _ Hl123 Hs))
      as (v4 & f4 & Hrun4 & Hl4).
    exists v4, f4. split; [exact Hrun4 | by eapply lowered_trans].
Qed.

(** The handler of a [Block], step by step, once its children are known
    to run: the scope is opened, the statements and the return statement
    are lowered, the register top is restored and the set-stack-top
    instruction is emitted, and the scope is closed. *)
Lemma Visit_Block_steps ss r :
  Forall (fun t => well_formed t = true -> runs t) ss ->
  (forall t, r = Some t -> well_formed t = true -> runs t) ->
  well_formed (Block ss r) = true ->
  forall a v f,
    generating v a f ->
    exists this v1 f1 v2 f2,
      NameScope_new (scope_name_list_ v) (func_ v) =
        Ok (this, mkScopeNameList (name_list_ (scope_name_list_ v)) (Some this)) /\
      previous_ this = current_scope_ (scope_name_list_ v) /\
      let v0 := set_scope_name_list
                  (mkScopeNameList (name_list_ (scope_name_list_ v)) (Some this))
                  v in
      visit_each Visit ss v0 = Ok v1 /\ lowered a v0 f v1 f1 /\
      visit_opt Visit r v1 = Ok v2 /\ lowered a v1 f1 v2 f2 /\
      Visit (Block ss r) v =
        Ok (set_scope_name_list
              (NameScope_delete this (scope_name_list_ v2))
              (set_function a
                 (AddInstruction (ACode OpType_SetTop (next_register f)) 0
                    (SetNextRegister (next_register f) f2)) v2)).
Proof.
  intros Hss Hr Hwf a v f Hg.
  cbn [well_formed] in Hwf. apply andb_prop in Hwf as [Hwss Hwr].
  set (this := mkNameScope (current_scope_ (scope_name_list_ v))
                 (length (name_list_ (scope_name_list_ v))) (Some a)).
  set (v0 := set_scope_name_list
               (mkScopeNameList (name_list_ (scope_name_list_ v)) (Some this)) v).
  assert (generating v0 a f) as Hg0 by done.
  assert (is_Some (current_scope_ (scope_name_list_ v0))) as Hs0
    by (by eexists).
  destruct (visit_each_lowered ss Hss Hwss a v0 f Hg0 Hs0)
    as (v1 & f1 & Hrun1 & Hl1).
  destruct (visit_opt_lowered r Hr Hwr a v1 f1 (proj1 Hl1)
              (lowered_scope _ _ _ _ _ Hl1 Hs0))
    as (v2 & f2 & Hrun2 & Hl2).
  exists this, v1, f1, v2, f2.
  assert (NameScope_new (scope_name_list_ v) (func_ v) =
          Ok (this, mkScopeNameList (name_list_ (scope_name_list_ v)) (Some this)))
    as Hnew.
  { unfold NameScope_new. by rewrite (proj1 Hg). }
  refine (conj Hnew (conj eq_refl (conj Hrun1 (conj Hl1
            (conj Hrun2 (conj Hl2 _)))))).
  change (Visit (Block ss r) v) with (Visit_Block Visit ss r v).
  unfold Visit_Block. rewrite Hnew. cbn [bind fst snd]. fold v0.
  rewrite (func_get_ok GetNextRegister v0 a f Hg0). cbn [bind].
  rewrite Hrun1. cbn [bind]. rewrite Hrun2. cbn [bind].
  rewrite (func_do_ok _ v2 a f2 (proj1 Hl2)). cbn [bind].
  erewrite func_do_ok by (eapply generating_set_function; exact (proj1 Hl2)).
  cbn [bind]. by rewrite set_function_twice.
Qed.

(** The handler of a [NormalFuncCall], step by step. *)
Lemma Visit_NormalFuncCall_steps c args :
  (well_formed c = true -> runs c) ->
  (forall t, args = Some t -> well_formed t = true -> runs t) ->
  well_formed (NormalFuncCall c args) = true ->
  forall a v f,
    generating v a f ->
    is_Some (current_scope_ (scope_name_list_ v)) ->
    exists v1 f1 v3 f3,
      Visit c v = Ok v1 /\ lowered a v f v1 f1 /\
      let f2 := AddInstruction (ACode OpType_SetTop (next_register f + 1)) 0
                  (SetNextRegister (next_register f + 1) f1) in
      let v2 := set_function a f2 v1 in
      visit_opt Visit args v2 = Ok v3 /\ lowered a v2 f2 v3 f3 /\
      Visit (NormalFuncCall c args) v =
        Ok (set_function a
              (AddInstruction (ACode OpType_Call (next_register f)) 0 f3) v3).
Proof.
  intros Hc Hargs Hwf a v f Hg Hs.
  cbn [well_formed] in Hwf. apply andb_prop in Hwf as [Hwc Hwa].
  destruct (Hc Hwc a v f Hg (or_introl Hs)) as (v1 & f1 & Hrun1 & Hl1).
  set (f2 := AddInstruction (ACode OpType_SetTop (next_register f + 1)) 0
               (SetNextRegister (next_register f + 1) f1)).
  set (v2 := set_function a f2 v1).
  assert (generating v2 a f2) as Hg2
    by (eapply generating_set_function; exact (proj1 Hl1)).
  assert (is_Some (current_scope_ (scope_name_list_ v2))) as Hs2
    by exact (lowered_scope _ _ _ _ _ Hl1 Hs).
  destruct (visit_opt_lowered args Hargs Hwa a v2 f2 Hg2 Hs2)
    as (v3 & f3 & Hrun3 & Hl3).
  exists v1, f1, v3, f3.
  refine (conj Hrun1 (conj Hl1 (conj Hrun3 (conj Hl3 _)))).
  change (Visit (NormalFuncCall c args) v)
    with (Visit_NormalFuncCall Visit c args v).
  unfold Visit_NormalFuncCall.
  rewrite (func_get_ok GetNextRegister v a f Hg). cbn [bind].
  rewrite Hrun1. cbn [bind].
  rewrite (func_do_ok _ v1 a f1 (proj1 Hl1)). cbn [bind].
  erewrite func_do_ok by (eapply generating_set_function; exact (proj1 Hl1)).
  cbn [bind]. rewrite set_function_twice.
  change (visit_opt Visit args v2) with (visit_opt Visit args v2).
  unfold GetNextRegister. fold f2. fold v2. rewrite Hrun3. cbn [bind].
  by rewrite (func_do_ok _ v3 a f3 (proj1 Hl3)).
Qed.

Lemma move_names_lowered names :
  forall reg a v f,
    generating v a f ->
    exists g,
      move_names names reg v = Ok (set_function a g v) /\
      next_register g = next_register f /\
      register_count g = register_count f /\
      exists code, instructions g = instructions f ++ code.
Proof.
  induction names as [|n names IH]; intros reg a v f Hg.
  - exists f. cbn [move_names]. repeat split; [|exists []; by rewrite app_nil_r].
    unfold set_function. destruct Hg as [_ Hf], v as [st snl nr fn].
    cbn in *. by rewrite list_insert_id.
  - cbn [move_names]. rewrite (func_do_ok _ v a f Hg). cbn [bind].
    edestruct (IH (reg + 1) a) as (g & Hrun & Hn & Hr & code & Hcode);
      [by eapply generating_set_function|].
    exists g. rewrite Hrun, set_function_twice.
    repeat split; [done..|].
    eexists. rewrite Hcode. simpl. by rewrite <- app_assoc.
Qed.

(** The handler of a [LocalNameListStatement], step by step.  [f1] is the
    function after the names have been lowered, where the handler reads
    the register top and the register count; [v2] is the visitor after the
    initializers have been lowered. *)
Lemma Visit_LocalNameListStatement_steps n e :
  (well_formed n = true -> runs n) ->
  (forall t, e = Some t -> well_formed t = true -> runs t) ->
  well_formed (LocalNameListStatement n e) = true ->
  forall a v f,
    generating v a f ->
    is_Some (current_scope_ (scope_name_list_ v)) ->
    exists v1 f1 v2 f2 g,
      Visit n v = Ok v1 /\ lowered a v f v1 f1 /\
      visit_opt Visit e v1 = Ok v2 /\ lowered a v1 f1 v2 f2 /\
      Visit (LocalNameListStatement n e) v =
        Ok (set_names_register [] (set_function a g v2)) /\
      next_register g = next_register f1 /\
      register_count g =
        Z.max (register_count f2)
              (register_count f1 + Z.of_nat (length (names_register_ v2))) /\
      exists code,
        instructions g =
          instructions f2 ++ code ++
          [(ACode OpType_SetTop (next_register f1), 0)].
Proof.
  intros Hn He Hwf a v f Hg Hs.
  cbn [well_formed] in Hwf. apply andb_prop in Hwf as [Hwn Hwe].
  destruct (Hn Hwn a v f Hg (or_introl Hs)) as (v1 & f1 & Hrun1 & Hl1).
  destruct (visit_opt_lowered e He Hwe a v1 f1 (proj1 Hl1)
              (lowered_scope _ _ _ _ _ Hl1 Hs))
    as (v2 & f2 & Hrun2 & Hl2).
  set (f3 := SetRegisterCount
               (register_count f1 + Z.of_nat (length (names_register_ v2))) f2).
  assert (generating (set_function a f3 v2) a f3) as Hg3
    by (eapply generating_set_function; exact (proj1 Hl2)).
  destruct (move_names_lowered (names_register_ v2) (next_register f1) a
              (set_function a f3 v2) f3 Hg3)
    as (g & Hmove & Hgn & Hgr & code & Hcode).
  exists v1, f1, v2, f2,
    (AddInstruction (ACode OpType_SetTop (next_register f1)) 0
       (SetNextRegister (next_register f1) g)).
  refine (conj Hrun1 (conj Hl1 (conj Hrun2 (conj Hl2 (conj _ _))))).
  - change (Visit (LocalNameListStatement n e) v)
      with (Visit_LocalNameListStatement Visit n e v).
    unfold Visit_LocalNameListStatement. rewrite Hrun1. cbn [bind].
    rewrite (func_get_ok GetNextRegister v1 a f1 (proj1 Hl1)). cbn [bind].
    rewrite (func_get_ok GetRegisterCount v1 a f1 (proj1 Hl1)). cbn [bind].
    rewrite Hrun2. cbn [bind].
    rewrite (func_do_ok _ v2 a f2 (proj1 Hl2)). cbn [bind].
    unfold GetNextRegister, GetRegisterCount. fold f3.
    change (names_register_ (set_function a f3 v2)) with (names_register_ v2).
    rewrite Hmove. cbn [bind]. rewrite set_function_twice.
    assert (generating (set_names_register [] (set_function a g v2)) a g)
      as Hg4 by (apply generating_names; eapply generating_set_function;
                 exact (proj1 Hl2)).
    rewrite (func_do_ok _ _ a g Hg4). cbn [bind].
    erewrite func_do_ok by (eapply generating_set_function; exact Hg4).
    rewrite set_function_twice. unfold set_function, set_names_register.
    cbn. by rewrite list_insert_insert_eq.
  - cbn [AddInstruction SetNextRegister next_register register_count
          instructions].
    rewrite Hgr. split; [done|]. split; [done|].
    exists code. rewrite Hcode. cbn [f3 SetRegisterCount instructions].
    by rewrite <- app_assoc.
Qed.

(** Every well-formed tree is lowered to completion. *)
Lemma Visit_runs t : well_formed t = true -> runs t.
Proof.
  induction t as [b m _|ss r IHss IHr|n e IHn IHe|tok|names|c args IHc IHargs
                 |es IHes] using SyntaxTree_nested_ind;
    intros Hwf a v f Hg Hs.
  - done.
  - destruct (Visit_Block_steps ss r IHss IHr Hwf a v f Hg)
      as (this & v1 & f1 & v2 & f2 & Hnew & Hprev & Hrun1 & Hl1 & Hrun2 & Hl2
          & Hrun).
    eexists _, _. split; [exact Hrun|].
    destruct Hl1 as (_ & _ & [c1 Hc1] & Hr1), Hl2 as (Hg2 & _ & [c2 Hc2] & Hr2).
    split; [eapply generating_scope, generating_set_function; exact Hg2|].
    split; [exact Hprev|]. split; [|simpl; lia].
    exists (c1 ++ c2 ++ [(ACode OpType_SetTop (next_register f), 0)]).
    simpl. by rewrite Hc2, Hc1, <- !app_assoc.
  - destruct Hs as [Hs|Hs]; [|done].
    destruct (Visit_LocalNameListStatement_steps n e IHn IHe Hwf a v f Hg Hs)
      as (v1 & f1 & v2 & f2 & g & Hrun1 & Hl1 & Hrun2 & Hl2 & Hrun & Hgn & Hgr
          & code & Hcode).
    eexists _, _. split; [exact Hrun|].
    destruct Hl1 as (_ & Hs1 & [c1 Hc1] & Hr1), Hl2 as (Hg2 & Hs2 & [c2 Hc2] & Hr2).
    split; [eapply generating_names, generating_set_function; exact Hg2|].
    split; [simpl; congruence|]. split; [|lia].
    eexists. by rewrite Hcode, Hc2, Hc1, <- !app_assoc.
  - destruct Hs as [Hs|Hs]; [|done].
    cbn [well_formed] in Hwf. apply bool_decide_eq_true in Hwf.
    destruct (Visit_Terminator_ok tok v a f Hg Hwf)
      as (g & index & Hrun & Hgn & Hgr & Hgi).
    exists (set_function a g v), g. split; [exact Hrun|].
    apply lowered_set_function; [done | by eexists | lia].
  - destruct Hs as [Hs|Hs]; [|done].
    by apply Visit_NameList_lowered.
  - destruct Hs as [Hs|Hs]; [|done].
    destruct (Visit_NormalFuncCall_steps c args IHc IHargs Hwf a v f Hg Hs)
      as (v1 & f1 & v3 & f3 & Hrun1 & Hl1 & Hrun3 & Hl3 & Hrun).
    eexists _, _. split; [exact Hrun|].
    eapply lowered_trans; [exact Hl1|].
    eapply lowered_trans;
      [|eapply lowered_trans;
        [exact Hl3 | apply lowered_AddInstruction; exact (proj1 Hl3)]].
    apply lowered_set_function; [exact (proj1 Hl1) | | simpl; lia].
    eexists. simpl. reflexivity.
  - destruct Hs as [Hs|Hs]; [|done].
    change (Visit (ExpressionList es) v) with (Visit_ExpressionList Visit es v).
    unfold Visit_ExpressionList.
    rewrite (func_get_ok GetNextRegister v a f Hg). cbn [bind].
    by apply ExpressionList_loop_lowered.
Qed.

Lemma Forall_runs (l : list SyntaxTree) :
  Forall (fun t => well_formed t = true -> runs t) l.
Proof. apply Forall_forall. intros t _. apply Visit_runs. Qed.

(** An expression leaves its value in the register that was the stack top
    when its lowering began: its last instruction is a load-constant or a
    call whose operand A is that register. *)
Lemma exp_lands e :
  is_exp e = true ->
  well_formed e = true ->
  forall a v f,
    generating v a f ->
    is_Some (current_scope_ (scope_name_list_ v)) ->
    exists v' f' code ins line,
      Visit e v = Ok v' /\ generating v' a f' /\
      instructions f' = instructions f ++ code ++ [(ins, line)] /\
      operand_a ins = next_register f /\
      (opcode ins = OpType_LoadConst \/ opcode ins = OpType_Call).
Proof.
  intros Hexp Hwf a v f Hg Hs.
  destruct e as [b m|ss r|n e|tok|names|c args|es]; try done.
  - cbn [well_formed] in Hwf. apply bool_decide_eq_true in Hwf.
    destruct (Visit_Terminator_ok tok v a f Hg Hwf)
      as (g & index & Hrun & Hgn & Hgr & Hgi).
    exists (set_function a g v), g, [],
      (ABCode OpType_LoadConst (next_register f) index), (Lex.line_ tok).
    split; [exact Hrun|]. split; [by eapply generating_set_function|].
    split; [exact Hgi|]. split; [done | by left].
  - destruct (Visit_NormalFuncCall_steps c args
                (fun _ => Visit_runs c ltac:(cbn [well_formed] in Hwf;
                                              by apply andb_prop in Hwf as [? _]))
                (fun t _ H => Visit_runs t H) Hwf a v f Hg Hs)
      as (v1 & f1 & v3 & f3 & Hrun1 & Hl1 & Hrun3 & Hl3 & Hrun).
    destruct Hl1 as (_ & _ & [c1 Hc1] & _), Hl3 as (Hg3 & _ & [c3 Hc3] & _).
    eexists _, _,
      (c1 ++ [(ACode OpType_SetTop (next_register f + 1), 0)] ++ c3),
      (ACode OpType_Call (next_register f)), 0.
    split; [exact Hrun|].
    split; [by eapply generating_set_function|].
    split; [|split; [done | by right]].
    simpl in *. by rewrite Hc3, Hc1, <- !app_assoc.
Qed.

Lemma ExpressionList_loop_app es1 es2 :
  forall reg v,
    ExpressionList_loop Visit (es1 ++ es2) reg v =
    let* v1 := ExpressionList_loop Visit es1 reg v in
    ExpressionList_loop Visit es2 (reg + Z.of_nat (length es1)) v1.
Proof.
  induction es1 as [|e es1 IH]; intros reg v.
  - simpl. by rewrite Z.add_0_r.
  - cbn [app ExpressionList_loop].
    destruct (func_do (SetNextRegister reg) v) as [v1|]; [|done]. cbn [bind].
    destruct (func_do _ v1) as [v2|]; [|done]. cbn [bind].
    destruct (Visit e v2) as [v3|]; [|done]. cbn [bind].
    rewrite IH. cbn [length]. by replace (reg + 1 + Z.of_nat (length es1))
      with (reg + Z.of_nat (S (length es1))) by lia.
Qed.

(** The handler of an [ExpressionList] at its [i]-th expression [e], the
    expressions [es1] coming before it. *)
Lemma Visit_ExpressionList_steps es1 e es2 :
  well_formed (ExpressionList (es1 ++ e :: es2)) = true ->
  forall a v f,
    generating v a f ->
    is_Some (current_scope_ (scope_name_list_ v)) ->
    exists v1 f1 v3 f3,
      Visit (ExpressionList es1) v = Ok v1 /\ lowered a v f v1 f1 /\
      let reg := next_register f + Z.of_nat (length es1) in
      let f2 := AddInstruction (ACode OpType_SetTop reg) 0
                  (SetNextRegister reg f1) in
      let v2 := set_function a f2 v1 in
      Visit e v2 = Ok v3 /\ lowered a v2 f2 v3 f3 /\
      Visit (ExpressionList (es1 ++ [e])) v = Ok v3 /\
      Visit (ExpressionList (es1 ++ e :: es2)) v =
        ExpressionList_loop Visit es2 (reg + 1) v3 /\
      (is_exp e = true ->
       exists code ins line,
         instructions f3 = instructions f2 ++ code ++ [(ins, line)] /\
         operand_a ins = reg /\
         (opcode ins = OpType_LoadConst \/ opcode ins = OpType_Call)).
Proof.
  intros Hwf a v f Hg Hs. cbn [well_formed] in Hwf.
  rewrite forallb_app in Hwf. apply andb_prop in Hwf as [Hw1 Hw2].
  cbn [forallb] in Hw2. apply andb_prop in Hw2 as [Hwe Hw2].
  destruct (ExpressionList_loop_lowered es1 (Forall_runs es1) Hw1
              (next_register f) a v f Hg Hs) as (v1 & f1 & Hrun1 & Hl1).
  set (reg := next_register f + Z.of_nat (length es1)).
  set (f2 := AddInstruction (ACode OpType_SetTop reg) 0 (SetNextRegister reg f1)).
  set (v2 := set_function a f2 v1).
  assert (generating v2 a f2) as Hg2
    by (eapply generating_set_function; exact (proj1 Hl1)).
  assert (is_Some (current_scope_ (scope_name_list_ v2))) as Hs2
    by exact (lowered_scope _ _ _ _ _ Hl1 Hs).
  destruct (Visit_runs e Hwe a v2 f2 Hg2 (or_introl Hs2))
    as (v3 & f3 & Hrun3 & Hl3).
  assert (forall rest,
            Visit (ExpressionList (es1 ++ e :: rest)) v =
            ExpressionList_loop Visit rest (reg + 1) v3) as Hloop.
  { intros rest.
    change (Visit (ExpressionList (es1 ++ e :: rest)) v)
      with (Visit_ExpressionList Visit (es1 ++ e :: rest) v).
    unfold Visit_ExpressionList.
    rewrite (func_get_ok GetNextRegister v a f Hg). cbn [bind].
    rewrite ExpressionList_loop_app. unfold GetNextRegister.
    rewrite Hrun1. cbn [bind ExpressionList_loop]. fold reg.
    rewrite (func_do_ok _ v1 a f1 (proj1 Hl1)). cbn [bind].
    erewrite func_do_ok by (eapply generating_set_function; exact (proj1 Hl1)).
    cbn [bind]. rewrite set_function_twice. fold f2. fold v2.
    by rewrite Hrun3. }
  exists v1, f1, v3, f3. split.
  { change (Visit (ExpressionList es1) v)
      with (Visit_ExpressionList Visit es1 v).
    unfold Visit_ExpressionList.
    by rewrite (func_get_ok GetNextRegister v a f Hg). }
  split; [exact Hl1|]. split; [exact Hrun3|]. split; [exact Hl3|].
  split; [exact (Hloop [])|]. split; [exact (Hloop es2)|].
  intros Hexp.
  destruct (exp_lands e Hexp Hwe a v2 f2 Hg2 Hs2)
    as (v' & f' & code & ins & line & Hrun' & Hg' & Hi' & Ho' & Hop').
  rewrite Hrun3 in Hrun'. injection Hrun' as <-.
  destruct (generating_inj _ _ _ _ _ (proj1 Hl3) Hg') as [_ <-].
  by exists code, ins, line.
Qed.

Lemma set_scope_name_list_same v :
  set_scope_name_list (scope_name_list_ v) v = v.
Proof. by destruct v. Qed.

(** C3 (re-declaration).  In a scope that already binds the name,
    [AddScopeName] returns false, leaves the table as it is and stores the
    register of the existing binding, an entry of the scope, in [*reg]; so
    a second declaration of a name in one scope returns false.  Otherwise
    it returns true and appends the binding.  The [NameList] handler,
    accordingly, reuses the existing register and leaves the function (and
    its next-register cursor) alone on a re-declaration, and on a new name
    binds it to the cursor's register and advances the cursor by one. *)
Theorem redeclaration_reuses_register :
  (forall this nl name reg r,
     IsBelongsToScope this nl name = Some r ->
     AddScopeName this nl name reg = (false, r, nl) /\
     exists i, (start_ this <= i)%nat /\
               name_list_ nl !! i = Some (mkScopeName name r)) /\
  (forall this nl name reg,
     IsBelongsToScope this nl name = None ->
     AddScopeName this nl name reg =
       (true, reg,
        mkScopeNameList (name_list_ nl ++ [mkScopeName name reg])
                        (current_scope_ nl))) /\
  (forall this nl name reg reg',
     (start_ this <= length (name_list_ nl))%nat ->
     let nl1 := snd (AddScopeName this nl name reg) in
     exists r, AddScopeName this nl1 name reg' = (false, r, nl1)) /\
  (forall n a v f scope,
     Lex.token_ n = Token_Id ->
     generating v a f ->
     current_scope_ (scope_name_list_ v) = Some scope ->
     match IsBelongsToScope scope (scope_name_list_ v) (str_ n) with
     | Some r =>
         Visit (NameList [n]) v =
           Ok (set_names_register (names_register_ v ++ [mkNameReg r n]) v)
     | None =>
         exists v' f',
           Visit (NameList [n]) v = Ok v' /\ generating v' a f' /\
           next_register f' = next_register f + 1 /\
           name_list_ (scope_name_list_ v') =
             name_list_ (scope_name_list_ v) ++
             [mkScopeName (str_ n) (next_register f)] /\
           names_register_ v' =
             names_register_ v ++ [mkNameReg (next_register f) n]
     end).
Proof.
  split; [|split; [|split]].
  - intros this nl name reg r Hr. split.
    + unfold AddScopeName. by rewrite Hr.
    + by apply IsBelongsToScope_entry.
  - intros this nl name reg Hr. unfold AddScopeName. by rewrite Hr.
  - intros this nl name reg reg' Hstart nl1. subst nl1.
    destruct (IsBelongsToScope this nl name) as [r|] eqn:Hr.
    + replace (AddScopeName this nl name reg) with (false, r, nl)
        by (unfold AddScopeName; by rewrite Hr).
      exists r. unfold AddScopeName. cbn [snd]. by rewrite Hr.
    + replace (AddScopeName this nl name reg)
        with (true, reg,
              mkScopeNameList (name_list_ nl ++ [mkScopeName name reg])
                              (current_scope_ nl))
        by (unfold AddScopeName; by rewrite Hr).
      exists reg. cbn [snd].
      assert (IsBelongsToScope this
                (mkScopeNameList (name_list_ nl ++ [mkScopeName name reg])
                                 (current_scope_ nl)) name = Some reg) as Hr1.
      { unfold IsBelongsToScope in *. cbn [name_list_].
        rewrite drop_app_le, scan_app, Hr by done. simpl.
        by destruct (decide (name = name)). }
      unfold AddScopeName. by rewrite Hr1.
  - intros n a v f scope Hn Hg Hs.
    change (Visit (NameList [n]) v) with (Visit_NameList [n] v).
    cbn [Visit_NameList]. rewrite Hn.
    rewrite (func_get_ok GetNextRegister v a f Hg). cbn [bind]. rewrite Hs.
    unfold AddScopeName, GetNextRegister.
    destruct (IsBelongsToScope scope (scope_name_list_ v) (str_ n)) as [r|].
    + cbn [bind]. by rewrite set_scope_name_list_same.
    + rewrite (func_call_ok AllocaNextRegister _ a f) by done.
      cbn [bind snd]. eexists _, (snd (AllocaNextRegister f)).
      split; [reflexivity|]. split; [|done].
      apply generating_names.
      by apply (generating_set_function (set_scope_name_list _ v) a f).
Qed.

Lemma redeclaration_reuses_register_witness :
  let scope := mkNameScope None 0 (Some 0%nat) in
  let nl := mkScopeNameList [mkScopeName (Some 5%nat) 3] (Some scope) in
  let n := mkTokenDetail Token_Id 0 (Some 5%nat) 1 in
  let v := mkVisitor [Function_new] nl [] (Some 0%nat) in
  (AddScopeName scope nl (Some 5%nat) 9 = (false, 3, nl) /\
   exists i, (start_ scope <= i)%nat /\
             name_list_ nl !! i = Some (mkScopeName (Some 5%nat) 3)) /\
  AddScopeName scope nl (Some 6%nat) 9 =
    (true, 9,
     mkScopeNameList (name_list_ nl ++ [mkScopeName (Some 6%nat) 9])
                     (current_scope_ nl)) /\
  (exists r,
     AddScopeName scope (snd (AddScopeName scope nl (Some 6%nat) 9))
                  (Some 6%nat) 10 =
     (false, r, snd (AddScopeName scope nl (Some 6%nat) 9))) /\
  Visit (NameList [n]) v =
    Ok (set_names_register (names_register_ v ++ [mkNameReg 3 n]) v).
Proof.
  intros scope nl n v.
  destruct redeclaration_reuses_register as (H1 & H2 & H3 & H4).
  split; [|split; [|split]].
  - apply (H1 scope nl (Some 5%nat) 9 3). reflexivity.
  - apply (H2 scope nl (Some 6%nat) 9). reflexivity.
  - apply (H3 scope nl (Some 6%nat) 9 10). simpl. lia.
  - apply (H4 n 0%nat v Function_new scope); [reflexivity | by split | reflexivity].
Defined.

(** C4 (stack rollback).  The handler of a well-formed [Block] runs to
    completion: it opens its scope, lowers the statements and then the
    optional return statement, and afterwards the function being generated
    has the next register it had when the handler was entered, and its
    instructions are those present after the statements and the return
    plus one final set-stack-top at that register. *)
Theorem block_restores_register_top ss r a v f :
  well_formed (Block ss r) = true ->
  generating v a f ->
  exists this v1 v2 f2 v' f',
    NameScope_new (scope_name_list_ v) (func_ v) =
      Ok (this, mkScopeNameList (name_list_ (scope_name_list_ v)) (Some this)) /\
    visit_each Visit ss
      (set_scope_name_list
         (mkScopeNameList (name_list_ (scope_name_list_ v)) (Some this)) v)
      = Ok v1 /\
    visit_opt Visit r v1 = Ok v2 /\
    generating v2 a f2 /\
    (exists code, instructions f2 = instructions f ++ code) /\
    Visit (Block ss r) v = Ok v' /\
    generating v' a f' /\
    next_register f' = next_register f /\
    instructions f' =
      instructions f2 ++ [(ACode OpType_SetTop (next_register f), 0)] /\
    last (instructions f') = Some (ACode OpType_SetTop (next_register f'), 0) /\
    current_scope_ (scope_name_list_ v') = current_scope_ (scope_name_list_ v).
Proof.
  intros Hwf Hg.
  destruct (Visit_Block_steps ss r (Forall_runs ss)
              (fun t _ H => Visit_runs t H) Hwf a v f Hg)
    as (this & v1 & f1 & v2 & f2 & Hnew & Hprev & Hrun1 & Hl1 & Hrun2 & Hl2
        & Hrun).
  destruct Hl1 as (_ & _ & [c1 Hc1] & _), Hl2 as (Hg2 & _ & [c2 Hc2] & _).
  exists this, v1, v2, f2. eexists _, _.
  split; [exact Hnew|]. split; [exact Hrun1|]. split; [exact Hrun2|].
  split; [exact Hg2|].
  split; [exists (c1 ++ c2); by rewrite Hc2, Hc1, app_assoc|].
  split; [exact Hrun|].
  split; [eapply generating_scope, generating_set_function; exact Hg2|].
  split; [done|]. split; [done|]. split; [|exact Hprev].
  simpl. by rewrite last_snoc.
Qed.

Lemma block_restores_register_top_witness :
  let num n := Terminator (mkTokenDetail Token_Number n nullptr 1) in
  let a := mkTokenDetail Token_Id 0 (Some 7%nat) 1 in
  let ss := [LocalNameListStatement (NameList [a])
               (Some (ExpressionList [num 1]));
             NormalFuncCall (num 5) (Some (ExpressionList [num 1; num 2]))] in
  let v := mkVisitor [Function_new] ScopeNameList_new [] (Some 0%nat) in
  exists v' f',
    Visit (Block ss None) v = Ok v' /\
    generating v' 0%nat f' /\
    next_register f' = next_register Function_new /\
    last (instructions f') = Some (ACode OpType_SetTop (next_register f'), 0).
Proof.
  intros num a ss v.
  destruct (block_restores_register_top ss None 0%nat v Function_new)
    as (this & v1 & v2 & f2 & v' & f' & _ & _ & _ & _ & _ & Hrun & Hg & Hn & _
        & Hlast & _).
  - reflexivity.
  - split; reflexivity.
  - exists v', f'. auto.
Defined.

(** C7 (expression list).  With [B] the next register when the handler
    of a well-formed [ExpressionList] is entered, the handler reaches its
    [i]-th expression [e] after lowering the [i] expressions [es1] before
    it, whatever registers those used; it then sets the next register to
    [B + i] and emits set-stack-top [B + i] as the last instruction before
    lowering [e]; and when [e] is an expression, the last instruction of
    its lowering is a load-constant or a call whose operand A is [B + i]. *)
Theorem expression_list_registers es1 e es2 a v f :
  well_formed (ExpressionList (es1 ++ e :: es2)) = true ->
  generating v a f ->
  is_Some (current_scope_ (scope_name_list_ v)) ->
  let reg := next_register f + Z.of_nat (length es1) in
  exists v1 f1 v3 f3,
    Visit (ExpressionList es1) v = Ok v1 /\ generating v1 a f1 /\
    let f2 := AddInstruction (ACode OpType_SetTop reg) 0
                (SetNextRegister reg f1) in
    let v2 := set_function a f2 v1 in
    (let* u := func_do (SetNextRegister reg) v1 in
     func_do (AddInstruction (ACode OpType_SetTop reg) 0) u) = Ok v2 /\
    generating v2 a f2 /\
    next_register f2 = reg /\
    last (instructions f2) = Some (ACode OpType_SetTop reg, 0) /\
    Visit e v2 = Ok v3 /\ generating v3 a f3 /\
    Visit (ExpressionList (es1 ++ [e])) v = Ok v3 /\
    Visit (ExpressionList (es1 ++ e :: es2)) v =
      ExpressionList_loop Visit es2 (reg + 1) v3 /\
    (is_exp e = true ->
     exists code ins line,
       instructions f3 = instructions f2 ++ code ++ [(ins, line)] /\
       operand_a ins = reg /\
       (opcode ins = OpType_LoadConst \/ opcode ins = OpType_Call)).
Proof.
  intros Hwf Hg Hs reg.
  destruct (Visit_ExpressionList_steps es1 e es2 Hwf a v f Hg Hs)
    as (v1 & f1 & v3 & f3 & Hrun1 & Hl1 & Hrun3 & Hl3 & Hsnoc & Hloop & Hland).
  exists v1, f1, v3, f3.
  split; [exact Hrun1|]. split; [exact (proj1 Hl1)|].
  split.
  { rewrite (func_do_ok _ v1 a f1 (proj1 Hl1)). cbn [bind].
    erewrite func_do_ok by (eapply generating_set_function; exact (proj1 Hl1)).
    by rewrite set_function_twice. }
  split; [eapply generating_set_function; exact (proj1 Hl1)|].
  split; [done|]. split; [simpl; by rewrite last_snoc|].
  split; [exact Hrun3|]. split; [exact (proj1 Hl3)|].
  split; [exact Hsnoc|]. split; [exact Hloop | exact Hland].
Qed.

Lemma expression_list_registers_witness :
  let num n := Terminator (mkTokenDetail Token_Number n nullptr 1) in
  let call := NormalFuncCall (num 5) (Some (ExpressionList [num 6; num 7])) in
  let scope := mkNameScope None 0 (Some 0%nat) in
  let v := mkVisitor [SetNextRegister 4 Function_new]
                     (mkScopeNameList [] (Some scope)) [] (Some 0%nat) in
  exists v3 f3 code ins line,
    Visit (ExpressionList [call; num 8]) v = Ok v3 /\
    generating v3 0%nat f3 /\
    instructions f3 = code ++ [(ins, line)] /\
    operand_a ins = 5.
Proof.
  intros num call scope v.
  destruct (expression_list_registers [call] (num 8) [] 0%nat v
              (SetNextRegister 4 Function_new))
    as (v1 & f1 & v3 & f3 & _ & _ & _ & _ & _ & _ & _ & Hg3 & Hrun & _ & Hland).
  - reflexivity.
  - split; reflexivity.
  - by eexists.
  - destruct (Hland eq_refl) as (code & ins & line & Hi & Ho & _).
    exists v3, f3. eexists _, ins, line.
    split; [exact Hrun|]. split; [exact Hg3|]. split; [|exact Ho].
    rewrite Hi. by rewrite app_assoc.
Defined.

(** C6 (function call).  With [R] the next register when the handler of a
    well-formed [NormalFuncCall] is entered: the callee is lowered first,
    from the stack top [R], and when it is an expression its value is left
    in register [R]; then the next register is set to [R + 1] and
    set-stack-top [R + 1] is emitted, immediately before the argument list
    is lowered, so that the [i]-th argument is lowered from the stack top
    [R + 1 + i] and, being an expression, leaves its value there: the
    handler's own run goes through the lowering of that argument, whose
    code is part of the code the handler has emitted; and the last
    instruction emitted is the call at register [R]. *)
Theorem call_lowering c args a v f :
  well_formed (NormalFuncCall c args) = true ->
  generating v a f ->
  is_Some (current_scope_ (scope_name_list_ v)) ->
  let R := next_register f in
  exists v1 f1 v3 f3 v' f',
    Visit c v = Ok v1 /\ generating v1 a f1 /\
    (is_exp c = true ->
     exists code ins line,
       instructions f1 = instructions f ++ code ++ [(ins, line)] /\
       operand_a ins = R) /\
    let f2 := AddInstruction (ACode OpType_SetTop (R + 1)) 0
                (SetNextRegister (R + 1) f1) in
    let v2 := set_function a f2 v1 in
    (let* u := func_do (SetNextRegister (R + 1)) v1 in
     func_do (AddInstruction (ACode OpType_SetTop (R + 1)) 0) u) = Ok v2 /\
    generating v2 a f2 /\
    next_register f2 = R + 1 /\
    instructions f2 = instructions f1 ++ [(ACode OpType_SetTop (R + 1), 0)] /\
    visit_opt Visit args v2 = Ok v3 /\ generating v3 a f3 /\
    (exists code, instructions f3 = instructions f2 ++ code) /\
    (forall es1 e es2,
       args = Some (ExpressionList (es1 ++ e :: es2)) ->
       is_exp e = true ->
       let reg := R + 1 + Z.of_nat (length es1) in
       exists u1 g1 u3 g3,
         Visit (ExpressionList es1) v2 = Ok u1 /\ generating u1 a g1 /\
         Visit e (set_function a
                    (AddInstruction (ACode OpType_SetTop reg) 0
                       (SetNextRegister reg g1)) u1) = Ok u3 /\
         generating u3 a g3 /\
         ExpressionList_loop Visit es2 (reg + 1) u3 = Ok v3 /\
         exists code ins line rest,
           instructions g3 =
             instructions g1 ++ [(ACode OpType_SetTop reg, 0)] ++ code ++
             [(ins, line)] /\
           operand_a ins = reg /\
           instructions f3 = instructions g3 ++ rest /\
           instructions f' =
             instructions g3 ++ rest ++ [(ACode OpType_Call R, 0)]) /\
    Visit (NormalFuncCall c args) v = Ok v' /\
    generating v' a f' /\
    instructions f' = instructions f3 ++ [(ACode OpType_Call R, 0)] /\
    last (instructions f') = Some (ACode OpType_Call R, 0).
Proof.
  intros Hwf Hg Hs R.
  pose proof Hwf as Hwf'. cbn [well_formed] in Hwf'.
  apply andb_prop in Hwf' as [Hwc Hwa].
  destruct (Visit_NormalFuncCall_steps c args (fun _ => Visit_runs c Hwc)
              (fun t _ H => Visit_runs t H) Hwf a v f Hg Hs)
    as (v1 & f1 & v3 & f3 & Hrun1 & Hl1 & Hrun3 & Hl3 & Hrun).
  set (f2 := AddInstruction (ACode OpType_SetTop (R + 1)) 0
               (SetNextRegister (R + 1) f1)) in *.
  set (v2 := set_function a f2 v1) in *.
  assert (generating v2 a f2) as Hg2
    by (eapply generating_set_function; exact (proj1 Hl1)).
  assert (is_Some (current_scope_ (scope_name_list_ v2))) as Hs2
    by exact (lowered_scope _ _ _ _ _ Hl1 Hs).
  exists v1, f1, v3, f3,
    (set_function a (AddInstruction (ACode OpType_Call R) 0 f3) v3),
    (AddInstruction (ACode OpType_Call R) 0 f3).
  split; [exact Hrun1|]. split; [exact (proj1 Hl1)|].
  split.
  { intros Hexp.
    destruct (exp_lands c Hexp Hwc a v f Hg Hs)
      as (v'' & f'' & code & ins & line & Hrun'' & Hg'' & Hi & Ho & _).
    rewrite Hrun1 in Hrun''. injection Hrun'' as <-.
    destruct (generating_inj _ _ _ _ _ (proj1 Hl1) Hg'') as [_ <-].
    by exists code, ins, line. }
  split.
  { rewrite (func_do_ok _ v1 a f1 (proj1 Hl1)). cbn [bind].
    erewrite func_do_ok by (eapply generating_set_function; exact (proj1 Hl1)).
    by rewrite set_function_twice. }
  split; [exact Hg2|]. split; [done|]. split; [done|].
  split; [exact Hrun3|]. split; [exact (proj1 Hl3)|].
  split; [exact (proj1 (proj2 (proj2 Hl3)))|].
  split.
  { intros es1 e es2 -> Hexp reg.
    destruct (Visit_ExpressionList_steps es1 e es2 Hwa a v2 f2 Hg2 Hs2)
      as (u1 & g1 & u3 & g3 & Hu1 & Hlu1 & Hu3 & Hlu3 & _ & Hloop & Hland).
    change (Visit (ExpressionList (es1 ++ e :: es2)) v2 = Ok v3) in Hrun3.
    rewrite Hloop in Hrun3.
    change (ExpressionList_loop Visit es2 (reg + 1) u3 = Ok v3) in Hrun3.
    pose proof Hwa as Hw2. cbn [well_formed] in Hw2.
    rewrite forallb_app in Hw2. apply andb_prop in Hw2 as [_ Hw2].
    cbn [forallb] in Hw2. apply andb_prop in Hw2 as [_ Hw2].
    assert (is_Some (current_scope_ (scope_name_list_ u3))) as Hsu3.
    { eapply lowered_scope; [exact Hlu3|].
      exact (lowered_scope _ _ _ _ _ Hlu1 Hs2). }
    destruct (ExpressionList_loop_lowered es2 (Forall_runs es2) Hw2 (reg + 1)
                a u3 g3 (proj1 Hlu3) Hsu3) as (w & h & Hw & Hlw).
    rewrite Hrun3 in Hw. injection Hw as <-.
    destruct (generating_inj _ _ _ _ _ (proj1 Hl3) (proj1 Hlw)) as [_ <-].
    destruct Hlw as (_ & _ & [rest Hrest] & _).
    exists u1, g1, u3, g3.
    split; [exact Hu1|]. split; [exact (proj1 Hlu1)|].
    split; [exact Hu3|]. split; [exact (proj1 Hlu3)|].
    split; [exact Hrun3|].
    destruct (Hland Hexp) as (code & ins & line & Hi & Ho & _).
    exists code, ins, line, rest. split.
    { rewrite Hi. simpl. by rewrite <- app_assoc. }
    split; [exact Ho|]. split; [exact Hrest|].
    cbn [AddInstruction instructions]. by rewrite Hrest, <- app_assoc. }
  split; [exact Hrun|].
  split; [eapply generating_set_function; exact (proj1 Hl3)|].
  split; [done|]. simpl. by rewrite last_snoc.
Qed.

Lemma call_lowering_witness :
  let num n := Terminator (mkTokenDetail Token_Number n nullptr 1) in
  let scope := mkNameScope None 0 (Some 0%nat) in
  let v := mkVisitor [SetNextRegister 4 Function_new]
                     (mkScopeNameList [] (Some scope)) [] (Some 0%nat) in
  exists v' f',
    Visit (NormalFuncCall (num 5) (Some (ExpressionList [num 1]))) v = Ok v' /\
    generating v' 0%nat f' /\
    last (instructions f') = Some (ACode OpType_Call 4, 0) /\
    exists before ins line rest,
      instructions f' =
        before ++ [(ins, line)] ++ rest ++ [(ACode OpType_Call 4, 0)] /\
      operand_a ins = 5.
Proof.
  intros num scope v.
  destruct (call_lowering (num 5) (Some (ExpressionList [num 1])) 0%nat v
              (SetNextRegister 4 Function_new))
    as (v1 & f1 & v3 & f3 & v' & f' & H).
  - reflexivity.
  - split; reflexivity.
  - by eexists.
  - exists v', f'.
    destruct H as (_ & _ & _ & _ & _ & _ & _ & _ & _ & _ & Hargs & Hrun & Hg'
                   & _ & Hlast).
    split; [exact Hrun|]. split; [exact Hg'|]. split; [exact Hlast|].
    destruct (Hargs [] (num 1) [] eq_refl eq_refl)
      as (u1 & g1 & u3 & g3 & _ & _ & _ & _ & _ & code & ins & line & rest
          & Hi & Ho & _ & Hcode).
    exists (instructions g1 ++ [(ACode OpType_SetTop (4 + 1 + 0), 0)] ++ code),
      ins, line, rest.
    split; [|exact Ho]. rewrite Hcode, Hi. by rewrite <- !app_assoc.
Defined.

Lemma alter_last {A : Type} (g : A -> A) (l : list A) (x : A) :
  alter g (length l) (l ++ [x]) = l ++ [g x].
Proof.
  replace (length l) with (length l + 0)%nat by lia. by rewrite alter_app_r.
Qed.

(** C8 as stated fails on a chunk with an empty block, visited while
    function 0 is current: function 1 is created, and it is still the
    current function when the handler has returned. *)
Lemma chunk_leaves_new_function_current :
  let v := mkVisitor [Function_new] ScopeNameList_new [] (Some 0%nat) in
  exists v',
    Visit (Chunk (Block [] None) nullptr) v = Ok v' /\
    func_ v = Some 0%nat /\
    func_ v' = Some 1%nat /\
    func_ v' <> func_ v.
Proof.
  intros v. eexists. split; [vm_compute; reflexivity|].
  repeat split; discriminate.
Qed.

(** C8, amended (chunk).  The handler of a [Chunk] creates a function
    whose superior is the function that was current, makes it current and
    lowers the body with it; when the handler returns the new function is
    still the current one: the handler does not put the previous one back. *)
Theorem chunk_enters_new_function b m v :
  well_formed b = true ->
  is_Some (current_scope_ (scope_name_list_ v)) \/ is_block b = true ->
  (forall a, func_ v = Some a -> (a < length (state_ v))%nat) ->
  let new := length (state_ v) in
  exists v1 f0 v' f',
    generating v1 new f0 /\
    superior f0 = func_ v /\
    state_ v1 = state_ v ++ [f0] /\
    scope_name_list_ v1 = scope_name_list_ v /\
    Visit (Chunk b m) v = Visit b v1 /\
    Visit b v1 = Ok v' /\
    generating v' new f' /\
    func_ v' <> func_ v.
Proof.
  intros Hwf Hs Hlive new.
  set (f0 := SetSuperior (func_ v) (SetBaseInfo m 0 Function_new)).
  set (v1 := mkVisitor (state_ v ++ [f0]) (scope_name_list_ v)
               (names_register_ v) (Some new)).
  assert (generating v1 new f0) as Hg1.
  { split; [done|]. simpl. by apply list_lookup_middle. }
  destruct (Visit_runs b Hwf new v1 f0 Hg1 Hs) as (v' & f' & Hrun & Hl).
  exists v1, f0, v', f'.
  split; [exact Hg1|]. split; [done|]. split; [done|]. split; [done|].
  split.
  { change (Visit (Chunk b m) v) with (Visit_Chunk Visit b m v).
    unfold Visit_Chunk, NewFunction. by rewrite !alter_last. }
  split; [exact Hrun|]. split; [exact (proj1 Hl)|].
  rewrite (proj1 (proj1 Hl)). intros Heq. symmetry in Heq.
  apply Hlive in Heq. unfold new in Heq. lia.
Qed.

Lemma chunk_enters_new_function_witness :
  let v := mkVisitor [Function_new] ScopeNameList_new [] (Some 0%nat) in
  exists v1 f0 v' f',
    generating v1 1%nat f0 /\
    superior f0 = Some 0%nat /\
    state_ v1 = state_ v ++ [f0] /\
    scope_name_list_ v1 = scope_name_list_ v /\
    Visit (Chunk (Block [] None) nullptr) v = Visit (Block [] None) v1 /\
    Visit (Block [] None) v1 = Ok v' /\
    generating v' 1%nat f' /\
    func_ v' <> func_ v.
Proof.
  intros v.
  apply (chunk_enters_new_function (Block [] None) nullptr v).
  - reflexivity.
  - by right.
  - intros a [= <-]. simpl. lia.
Defined.

End Lowering.

(** * More on the scope chain *)

Section ScopeChainInvariant.

Import Scope.

Lemma chain_ok_unfold bound this :
  chain_ok bound this <->
  owner_ this <> nullptr /\ (start_ this <= bound)%nat /\
  match previous_ this with
  | Some p => chain_ok (start_ this) p
  | None => True
  end.
Proof. by destruct this. Qed.

Lemma chain_ok_weaken bound bound' this :
  chain_ok bound this -> (bound <= bound')%nat -> chain_ok bound' this.
Proof.
  rewrite !chain_ok_unfold. intros (Ho & Hs & Hp) Hle.
  split; [done|]. split; [lia | done].
Qed.

Lemma chain_ok_members bound this :
  chain_ok bound this ->
  forall t, t ∈ chain this ->
    owner_ t <> nullptr /\ (start_ t <= start_ this)%nat.
Proof.
  revert bound.
  induction this as [st ow|p IH st ow] using NameScope_chain_ind;
    intros bound Hok t Ht; rewrite chain_unfold in Ht;
    apply chain_ok_unfold in Hok as (Ho & Hs & Hp); cbn [previous_] in *.
  - apply list_elem_of_singleton in Ht as ->. by split.
  - apply elem_of_cons in Ht as [->|Ht]; [by split|].
    destruct (IH _ Hp t Ht) as [Hot Hst]. split; [done|].
    apply chain_ok_unfold in Hp as (_ & Hsp & _). cbn [start_] in *. lia.
Qed.

Lemma AddScopeName_current_scope this nl name reg :
  current_scope_ (snd (AddScopeName this nl name reg)) = current_scope_ nl.
Proof. unfold AddScopeName. by destruct (IsBelongsToScope this nl name). Qed.

Lemma step_keeps_list_ok op nl nl' :
  list_ok nl -> step op nl = Ok nl' -> list_ok nl'.
Proof.
  unfold list_ok. intros Hok Hstep. destruct op as [owner|name reg|].
  - destruct (open_scope_inv _ _ _ Hstep) as (this & -> & Hprev & Hstart).
    cbn [current_scope_ name_list_]. apply chain_ok_unfold.
    rewrite Hprev, Hstart. split; [|split; [done|]].
    + unfold step, NameScope_new in Hstep.
      destruct owner as [a|]; cbn in Hstep.
      * by injection Hstep as <-.
      * destruct (current_scope_ nl) as [p|] eqn:Hp; [|done].
        cbn in Hstep. injection Hstep as <-.
        cbn [owner_]. by apply chain_ok_unfold in Hok as (Ho & _).
    + destruct (current_scope_ nl); [|done]. exact Hok.
  - cbn [step] in Hstep. destruct (current_scope_ nl) as [this|] eqn:Hc; [|done].
    injection Hstep as <-. rewrite AddScopeName_current_scope, Hc.
    eapply chain_ok_weaken; [exact Hok|]. unfold AddScopeName.
    destruct (IsBelongsToScope this nl name); cbn [snd name_list_];
      [done | rewrite length_app; lia].
  - cbn [step] in Hstep. destruct (current_scope_ nl) as [this|] eqn:Hc; [|done].
    injection Hstep as <-. unfold NameScope_delete.
    cbn [current_scope_ name_list_]. rewrite length_resize.
    apply chain_ok_unfold in Hok as (_ & _ & Hp).
    by destruct (previous_ this).
Qed.

Lemma NameScope_new_inv nl owner this nl' :
  NameScope_new nl owner = Ok (this, nl') ->
  nl' = mkScopeNameList (name_list_ nl) (Some this) /\
  previous_ this = current_scope_ nl /\
  start_ this = length (name_list_ nl).
Proof.
  unfold NameScope_new. destruct owner as [a|]; simpl.
  - by intros [= <- <-].
  - destruct (current_scope_ nl) as [p|]; [|done]. by intros [= <- <-].
Qed.

Lemma IsBelongsToScope_past_end this nl name :
  (length (name_list_ nl) <= start_ this)%nat ->
  IsBelongsToScope this nl name = None.
Proof. intros Hle. unfold IsBelongsToScope. by rewrite drop_ge. Qed.

Lemma IsBelongsToScope_appended this nl name reg :
  (start_ this <= length (name_list_ nl))%nat ->
  IsBelongsToScope this nl name = None ->
  IsBelongsToScope this
    (mkScopeNameList (name_list_ nl ++ [mkScopeName name reg])
                     (current_scope_ nl)) name = Some reg.
Proof.
  unfold IsBelongsToScope. cbn [name_list_]. intros Hstart Hr.
  rewrite drop_app_le, scan_app, Hr by done. simpl.
  by destruct (decide (name = name)).
Qed.

Lemma new_scope_holds_nothing nl this name :
  start_ this = length (name_list_ nl) ->
  IsBelongsToScope this (mkScopeNameList (name_list_ nl) (Some this)) name
    = None.
Proof. intros Hstart. apply IsBelongsToScope_past_end. simpl. lia. Qed.

Lemma size_t_add_fits x y :
  size_t_fits (x + y) -> size_t_add x y = (x + y)%nat.
Proof.
  unfold size_t_fits, size_t_add. intros Hfit.
  rewrite N.mod_small by lia. lia.
Qed.

Lemma size_t_add_wraps x y k :
  (N.of_nat x + N.of_nat y = 2 ^ 64 + N.of_nat k)%N ->
  size_t_fits k ->
  size_t_add x y = k.
Proof.
  unfold size_t_fits, size_t_add. intros Hsum Hfit. rewrite Hsum.
  replace (2 ^ 64 + N.of_nat k)%N with (N.of_nat k + 1 * 2 ^ 64)%N by lia.
  rewrite N.Div0.mod_add. rewrite N.mod_small by lia. lia.
Qed.

Lemma size_t_fits_le n m : size_t_fits m -> (n <= m)%nat -> size_t_fits n.
Proof. unfold size_t_fits. lia. Qed.

Lemma GetScopeName_fits this nl index :
  size_t_fits (start_ this + index) ->
  GetScopeName this nl index = drop (start_ this) (name_list_ nl) !! index.
Proof.
  intros Hfit. unfold GetScopeName. cbn zeta.
  rewrite (size_t_add_fits _ _ Hfit), lookup_drop.
  destruct (decide _) as [|Hge]; [done|].
  symmetry. apply lookup_ge_None. lia.
Qed.

(** X1 (chains of the constructor).  Starting from a table whose chain is
    well built (the empty table of a new visitor is), any run of scope
    operations keeps it so: every scope of the chain has a non-null owner
    and starts no later than the scopes opened inside it and than the end
    of the table.  Hence [GetBlongsToScope] from the innermost scope
    returns a null function exactly when it returns a null scope. *)
Theorem run_keeps_chain_well_built ops nl nl' :
  list_ok nl ->
  run ops nl = Ok nl' ->
  list_ok nl' /\
  forall s,
    current_scope_ nl' = Some s ->
    (start_ s <= length (name_list_ nl'))%nat /\
    (forall t, t ∈ chain s ->
       owner_ t <> nullptr /\ (start_ t <= start_ s)%nat) /\
    (forall name,
       fst (GetBlongsToScope s nl' name) = None <->
       snd (GetBlongsToScope s nl' name) = nullptr).
Proof.
  intros Hok Hrun.
  assert (list_ok nl') as Hok'.
  { revert nl Hok Hrun. induction ops as [|op ops IH]; intros nl Hok Hrun.
    - by injection Hrun as <-.
    - rewrite run_cons in Hrun.
      destruct (step op nl) as [nl1|] eqn:Hstep; [|done]. cbn [bind] in Hrun.
      eapply IH; [|exact Hrun]. by eapply step_keeps_list_ok. }
  split; [exact Hok'|]. intros s Hs. unfold list_ok in Hok'. rewrite Hs in Hok'.
  split; [by apply chain_ok_unfold in Hok' as (_ & Hle & _)|].
  split; [by eapply chain_ok_members|].
  intros name.
  destruct (GetBlongsToScope_spec s nl' name)
    as [(inner & t & outer & Hch & _ & _ & HG)|[_ HG]]; rewrite HG; cbn [fst snd].
  - split; [done|]. intros Hnull. exfalso.
    eapply (chain_ok_members _ _ Hok' t); [|exact Hnull].
    rewrite Hch. apply elem_of_app. right. left.
  - done.
Qed.

Lemma run_keeps_chain_well_built_witness :
  let ops := [open_scope (Some 0%nat); declare (Some 5%nat) 0;
              open_scope nullptr; declare (Some 6%nat) 1] in
  exists nl',
    run ops ScopeNameList_new = Ok nl' /\
    list_ok nl' /\
    forall s,
      current_scope_ nl' = Some s ->
      (start_ s <= length (name_list_ nl'))%nat /\
      (forall t, t ∈ chain s ->
         owner_ t <> nullptr /\ (start_ t <= start_ s)%nat) /\
      (forall name,
         fst (GetBlongsToScope s nl' name) = None <->
         snd (GetBlongsToScope s nl' name) = nullptr).
Proof.
  intros ops. eexists. split; [reflexivity|].
  apply (run_keeps_chain_well_built ops ScopeNameList_new).
  - exact I.
  - reflexivity.
Defined.

(** X2 (membership reaches to the end of the table).  [IsBelongsToScope]
    scans from [start_] to the end of the table, not to the end of the
    scope: in a well-built chain a name held by a scope is also reported
    by every scope further out. *)
Theorem membership_is_upward_closed bound this nl name r t :
  chain_ok bound this ->
  t ∈ chain this ->
  IsBelongsToScope this nl name = Some r ->
  is_Some (IsBelongsToScope t nl name).
Proof.
  intros Hok Ht Hr.
  destruct (chain_ok_members _ _ Hok t Ht) as [_ Hle].
  unfold IsBelongsToScope in *.
  replace (start_ this) with (start_ t + (start_ this - start_ t))%nat in Hr
    by lia.
  rewrite <- drop_drop in Hr.
  rewrite <- (take_drop (start_ this - start_ t) (drop (start_ t) (name_list_ nl))).
  rewrite scan_app, Hr. by destruct (scan name (take _ _)).
Qed.

Lemma membership_is_upward_closed_witness :
  let outer := mkNameScope None 0 (Some 0%nat) in
  let inner := mkNameScope (Some outer) 1 (Some 0%nat) in
  let nl := mkScopeNameList [mkScopeName (Some 5%nat) 0; mkScopeName (Some 6%nat) 1]
                            (Some inner) in
  is_Some (IsBelongsToScope outer nl (Some 6%nat)).
Proof.
  intros outer inner nl.
  apply (membership_is_upward_closed 2%nat inner nl (Some 6%nat) 1 outer).
  - simpl. repeat split; (lia || discriminate).
  - right. left.
  - reflexivity.
Defined.

(** X3 (a new scope is empty).  Right after its construction a scope
    holds no name and has no entry at any index whose sum with [start_]
    does not wrap, so resolving through it gives what resolving from the
    scope it was opened in gave (the null pair when there was none). *)
Theorem new_scope_is_transparent nl owner this nl' :
  NameScope_new nl owner = Ok (this, nl') ->
  (forall name, IsBelongsToScope this nl' name = None) /\
  (forall index,
     size_t_fits (start_ this + index) ->
     GetScopeName this nl' index = None) /\
  (forall name,
     GetBlongsToScope this nl' name =
     match current_scope_ nl with
     | Some p => GetBlongsToScope p nl name
     | None => (None, nullptr)
     end).
Proof.
  intros Hnew.
  destruct (NameScope_new_inv _ _ _ _ Hnew) as (-> & Hprev & Hstart).
  pose proof (fun name => new_scope_holds_nothing nl this name Hstart)
    as Hnone.
  split; [exact Hnone|]. split.
  - intros index Hfit. rewrite (GetScopeName_fits _ _ _ Hfit).
    cbn [name_list_]. apply lookup_ge_None. rewrite length_drop. lia.
  - intros name. rewrite GetBlongsToScope_unfold, Hnone, Hprev.
    destruct (current_scope_ nl) as [p|]; [|done].
    by apply GetBlongsToScope_ext.
Qed.

Lemma new_scope_is_transparent_witness :
  let outer := mkNameScope None 0 (Some 0%nat) in
  let nl := mkScopeNameList [mkScopeName (Some 5%nat) 3] (Some outer) in
  let this := mkNameScope (Some outer) 1 (Some 0%nat) in
  let nl' := mkScopeNameList [mkScopeName (Some 5%nat) 3] (Some this) in
  (forall name, IsBelongsToScope this nl' name = None) /\
  (forall index,
     size_t_fits (start_ this + index) ->
     GetScopeName this nl' index = None) /\
  (forall name,
     GetBlongsToScope this nl' name = GetBlongsToScope outer nl name).
Proof.
  intros outer nl this nl'.
  apply (new_scope_is_transparent nl nullptr this nl'). reflexivity.
Defined.

Lemma IsBelongsToScope_grows this nl name r extra :
  IsBelongsToScope this nl name = Some r ->
  IsBelongsToScope this
    (mkScopeNameList (name_list_ nl ++ extra) (current_scope_ nl)) name = Some r.
Proof.
  unfold IsBelongsToScope. cbn [name_list_]. intros Hr.
  by rewrite drop_app, scan_app, Hr.
Qed.

(** X4 (declare, then look up).  In a scope that starts within the table,
    after [AddScopeName] the name is held by the scope with exactly the
    register left in [*reg], whether the binding is new or not; resolving
    the name from the scope stops at the scope itself; and, the size of
    the grown table being a [std::size_t], a new binding is the last entry
    of the scope for [GetScopeName]. *)
Theorem declare_then_lookup this nl name reg :
  (start_ this <= length (name_list_ nl))%nat ->
  let added := fst (fst (AddScopeName this nl name reg)) in
  let r := snd (fst (AddScopeName this nl name reg)) in
  let nl' := snd (AddScopeName this nl name reg) in
  IsBelongsToScope this nl' name = Some r /\
  GetBlongsToScope this nl' name = (Some this, owner_ this) /\
  (added = true ->
   size_t_fits (S (length (name_list_ nl))) ->
   GetScopeName this nl' (length (name_list_ nl) - start_ this)
     = Some (mkScopeName name reg) /\
   GetScopeName this nl' (S (length (name_list_ nl) - start_ this)) = None).
Proof.
  intros Hstart added r nl'. subst added r nl'. unfold AddScopeName.
  destruct (IsBelongsToScope this nl name) as [r0|] eqn:Hr; cbn [fst snd].
  - split; [done|]. split; [|done].
    by rewrite GetBlongsToScope_unfold, Hr.
  - pose proof (IsBelongsToScope_appended this nl name reg Hstart Hr) as Hr1.
    split; [done|]. split; [by rewrite GetBlongsToScope_unfold, Hr1|].
    intros _ Hfit.
    rewrite !GetScopeName_fits by (eapply size_t_fits_le; [exact Hfit | lia]).
    cbn [name_list_]. rewrite !lookup_drop. split.
    + apply list_lookup_middle. lia.
    + apply lookup_ge_None. rewrite length_app. cbn [length]. lia.
Qed.

Lemma declare_then_lookup_witness :
  let this := mkNameScope None 1 (Some 0%nat) in
  let nl := mkScopeNameList [mkScopeName (Some 5%nat) 0] (Some this) in
  let nl' := snd (AddScopeName this nl (Some 6%nat) 4) in
  IsBelongsToScope this nl' (Some 6%nat) = Some 4 /\
  GetBlongsToScope this nl' (Some 6%nat) = (Some this, owner_ this) /\
  GetScopeName this nl' 0 = Some (mkScopeName (Some 6%nat) 4) /\
  GetScopeName this nl' 1 = None.
Proof.
  intros this nl.
  destruct (declare_then_lookup this nl (Some 6%nat) 4) as (H1 & H2 & H3).
  - simpl. lia.
  - split; [exact H1|]. split; [exact H2|].
    apply H3; [reflexivity|]. unfold size_t_fits. simpl. lia.
Defined.

(** X5 (entries by index and by name agree).  For an index whose sum
    with [start_] does not wrap, [GetScopeName] returns null exactly when
    the sum reaches the size of the table, and the name of every entry it
    returns is held by the scope; in a table whose size is a
    [std::size_t], a name held by the scope is returned at some index with
    the register [IsBelongsToScope] reports, no smaller index carrying
    that name.  When the sum wraps around to [k], what is returned is the
    entry [k] of the whole table, be it before [start_]. *)
Theorem entries_by_index_and_by_name this nl :
  (forall index,
     size_t_fits (start_ this + index) ->
     (GetScopeName this nl index = None <->
      (length (name_list_ nl) <= start_ this + index)%nat)) /\
  (forall index e,
     size_t_fits (start_ this + index) ->
     GetScopeName this nl index = Some e ->
     is_Some (IsBelongsToScope this nl (name_ e))) /\
  (forall name r,
     size_t_fits (length (name_list_ nl)) ->
     IsBelongsToScope this nl name = Some r ->
     exists index,
       GetScopeName this nl index = Some (mkScopeName name r) /\
       forall j e, (j < index)%nat ->
                   GetScopeName this nl j = Some e -> name_ e <> name) /\
  (forall index k,
     (N.of_nat (start_ this) + N.of_nat index = 2 ^ 64 + N.of_nat k)%N ->
     size_t_fits k ->
     GetScopeName this nl index = name_list_ nl !! k).
Proof.
  split; [|split; [|split]].
  - intros index Hfit.
    rewrite (GetScopeName_fits _ _ _ Hfit), lookup_ge_None, length_drop. lia.
  - intros index e Hfit He. rewrite (GetScopeName_fits _ _ _ Hfit) in He.
    unfold IsBelongsToScope.
    destruct (scan (name_ e) (drop (start_ this) (name_list_ nl))) eqn:Hs;
      [by eexists|].
    exfalso. apply (proj1 (scan_None _ _) Hs e); [|done].
    by eapply list_elem_of_lookup_2.
  - intros name r Hsize Hr. unfold IsBelongsToScope in Hr.
    apply scan_Some in Hr as (i & e & Hi & Hn & Hreg & Hfirst).
    assert ((start_ this + i < length (name_list_ nl))%nat) as Hlt.
    { apply lookup_lt_Some in Hi. rewrite length_drop in Hi. lia. }
    exists i. split.
    + rewrite GetScopeName_fits by (eapply size_t_fits_le; [exact Hsize | lia]).
      rewrite Hi. destruct e; simpl in *; congruence.
    + intros j e' Hj He'.
      rewrite GetScopeName_fits in He'
        by (eapply size_t_fits_le; [exact Hsize | lia]).
      by eapply Hfirst.
  - intros index k Hsum Hfit. unfold GetScopeName. cbn zeta.
    rewrite (size_t_add_wraps _ _ _ Hsum Hfit).
    destruct (decide _) as [|Hge]; [done|].
    symmetry. apply lookup_ge_None. lia.
Qed.

Lemma entries_by_index_and_by_name_witness :
  let this := mkNameScope None 1 (Some 0%nat) in
  let nl := mkScopeNameList [mkScopeName (Some 5%nat) 0;
                             mkScopeName (Some 6%nat) 4] (Some this) in
  exists index,
    GetScopeName this nl index = Some (mkScopeName (Some 6%nat) 4) /\
    forall j e, (j < index)%nat ->
                GetScopeName this nl j = Some e -> name_ e <> Some 6%nat.
Proof.
  intros this nl.
  apply (proj1 (proj2 (proj2 (entries_by_index_and_by_name this nl)))
           (Some 6%nat) 4).
  - unfold size_t_fits. simpl. lia.
  - reflexivity.
Defined.

(** The index [SIZE_MAX] in a scope starting at 1 reads the entry 0 of the
    table, which belongs to the enclosing scope. *)
Example GetScopeName_wraps_around :
  let this := mkNameScope None 1 (Some 0%nat) in
  let nl := mkScopeNameList [mkScopeName (Some 5%nat) 0;
                             mkScopeName (Some 6%nat) 4] (Some this) in
  GetScopeName this nl (N.to_nat (2 ^ 64 - 1)) = Some (mkScopeName (Some 5%nat) 0).
Proof.
  intros this nl. unfold GetScopeName, size_t_add. cbn zeta.
  rewrite N2Nat.id.
  change ((N.of_nat (start_ this) + (2 ^ 64 - 1)) mod 2 ^ 64)%N with 0%N.
  reflexivity.
Qed.

(** X6 (shadowing).  A name held by the innermost scope [outer] can be
    declared again in a scope opened inside it: the declaration is a new
    binding, the name then resolves to the inner scope with the new
    register while [outer] still reports its own register, and when the
    inner scope is destroyed the table is the one from before the open and
    the name resolves to [outer] with its old register. *)
Theorem shadowing_ends_with_the_scope nl outer name r0 owner inner nl1 r1 :
  current_scope_ nl = Some outer ->
  IsBelongsToScope outer nl name = Some r0 ->
  NameScope_new nl owner = Ok (inner, nl1) ->
  let nl2 := snd (AddScopeName inner nl1 name r1) in
  AddScopeName inner nl1 name r1 =
    (true, r1,
     mkScopeNameList (name_list_ nl ++ [mkScopeName name r1]) (Some inner)) /\
  IsBelongsToScope inner nl2 name = Some r1 /\
  GetBlongsToScope inner nl2 name = (Some inner, owner_ inner) /\
  IsBelongsToScope outer nl2 name = Some r0 /\
  NameScope_delete inner nl2 = nl /\
  GetBlongsToScope outer (NameScope_delete inner nl2) name
    = (Some outer, owner_ outer) /\
  IsBelongsToScope outer (NameScope_delete inner nl2) name = Some r0.
Proof.
  intros Hcur Hr0 Hnew nl2.
  destruct (NameScope_new_inv _ _ _ _ Hnew) as (-> & Hprev & Hstart).
  pose proof (new_scope_holds_nothing nl inner name Hstart) as Hnone.
  assert (AddScopeName inner (mkScopeNameList (name_list_ nl) (Some inner))
            name r1 =
          (true, r1,
           mkScopeNameList (name_list_ nl ++ [mkScopeName name r1]) (Some inner)))
    as Hadd.
  { unfold AddScopeName. by rewrite Hnone. }
  subst nl2. rewrite Hadd. cbn [fst snd].
  pose proof (IsBelongsToScope_appended inner
                (mkScopeNameList (name_list_ nl) (Some inner)) name r1
                ltac:(simpl; lia) Hnone) as Hin.
  cbn [name_list_ current_scope_] in Hin.
  assert (GetBlongsToScope inner
            (mkScopeNameList (name_list_ nl ++ [mkScopeName name r1])
                             (Some inner)) name = (Some inner, owner_ inner))
    as HG by (by rewrite GetBlongsToScope_unfold, Hin).
  assert (NameScope_delete inner
            (mkScopeNameList (name_list_ nl ++ [mkScopeName name r1])
                             (Some inner)) = nl) as Hdel.
  { by apply close_after_growth. }
  split; [done|]. split; [exact Hin|]. split; [exact HG|].
  split.
  { unfold IsBelongsToScope in *. cbn [name_list_].
    by rewrite drop_app, scan_app, Hr0. }
  split; [exact Hdel|]. rewrite Hdel.
  split; [by rewrite GetBlongsToScope_unfold, Hr0 | exact Hr0].
Qed.

Lemma shadowing_ends_with_the_scope_witness :
  let outer := mkNameScope None 0 (Some 0%nat) in
  let nl := mkScopeNameList [mkScopeName (Some 5%nat) 0] (Some outer) in
  let inner := mkNameScope (Some outer) 1 (Some 0%nat) in
  let nl1 := mkScopeNameList [mkScopeName (Some 5%nat) 0] (Some inner) in
  let nl2 := snd (AddScopeName inner nl1 (Some 5%nat) 1) in
  AddScopeName inner nl1 (Some 5%nat) 1 =
    (true, 1,
     mkScopeNameList (name_list_ nl ++ [mkScopeName (Some 5%nat) 1])
                     (Some inner)) /\
  IsBelongsToScope inner nl2 (Some 5%nat) = Some 1 /\
  GetBlongsToScope inner nl2 (Some 5%nat) = (Some inner, owner_ inner) /\
  IsBelongsToScope outer nl2 (Some 5%nat) = Some 0 /\
  NameScope_delete inner nl2 = nl /\
  GetBlongsToScope outer (NameScope_delete inner nl2) (Some 5%nat)
    = (Some outer, owner_ outer) /\
  IsBelongsToScope outer (NameScope_delete inner nl2) (Some 5%nat) = Some 0.
Proof.
  intros outer nl inner nl1.
  apply (shadowing_ends_with_the_scope nl outer (Some 5%nat) 0 nullptr inner
           nl1 1); reflexivity.
Defined.

End ScopeChainInvariant.

(** * More on the lowering *)

Section LoweringEffects.

Import Scope Func Lex Gen.

Lemma bind_Ok {A B : Type} (m : outcome A) (k : A -> outcome B) b :
  (let* x := m in k x) = Ok b -> exists x, m = Ok x /\ k x = Ok b.
Proof. destruct m as [x|]; [|done]. intros H. by exists x. Qed.

Ltac bind_inv H :=
  let x := fresh "x" in
  let E := fresh "E" in
  apply bind_Ok in H as (x & E & H).

Lemma func_call_inv {A : Type} (m : Function -> A * Function) v r :
  func_call m v = Ok r ->
  exists a f, generating v a f /\
              r = (fst (m f), set_function a (snd (m f)) v).
Proof.
  unfold func_call, current_function.
  destruct (func_ v) as [a|] eqn:Ha; [|done].
  destruct (state_ v !! a) as [f|] eqn:Hf; [|done]. cbn [bind].
  intros [= <-]. by exists a, f.
Qed.

Lemma func_do_inv (m : Function -> Function) v v' :
  func_do m v = Ok v' ->
  exists a f, generating v a f /\ v' = set_function a (m f) v.
Proof.
  unfold func_do. intros H. bind_inv H.
  apply func_call_inv in E as (a & f & Hg & ->). injection H as <-.
  by exists a, f.
Qed.

Lemma func_get_inv {A : Type} (m : Function -> A) v r :
  func_get m v = Ok r -> exists a f, generating v a f /\ r = m f.
Proof.
  unfold func_get, current_function.
  destruct (func_ v) as [a|] eqn:Ha; [|done].
  destruct (state_ v !! a) as [f|] eqn:Hf; [|done]. cbn [bind].
  intros [= <-]. by exists a, f.
Qed.

Lemma table_grows_refl v : table_grows v v.
Proof. split; [done|]. exists []. by rewrite app_nil_r. Qed.

Lemma table_grows_trans v v1 v2 :
  table_grows v v1 -> table_grows v1 v2 -> table_grows v v2.
Proof.
  intros [Hc1 [e1 He1]] [Hc2 [e2 He2]]. split; [congruence|].
  exists (e1 ++ e2). by rewrite He2, He1, app_assoc.
Qed.

Lemma table_grows_same v v' :
  scope_name_list_ v' = scope_name_list_ v -> table_grows v v'.
Proof. intros H. unfold table_grows. rewrite H. apply table_grows_refl. Qed.

Lemma func_do_table m v v' : func_do m v = Ok v' -> table_grows v v'.
Proof.
  intros H. apply func_do_inv in H as (a & f & _ & ->).
  by apply table_grows_same.
Qed.

Lemma func_call_table {A : Type} (m : Function -> A * Function) v r :
  func_call m v = Ok r -> table_grows v (snd r).
Proof.
  intros H. apply func_call_inv in H as (a & f & _ & ->).
  by apply table_grows_same.
Qed.

Lemma move_names_table names :
  forall reg v v', move_names names reg v = Ok v' -> table_grows v v'.
Proof.
  induction names as [|n names IH]; intros reg v v' H; cbn [move_names] in H.
  - injection H as <-. apply table_grows_refl.
  - bind_inv H. eapply table_grows_trans; [by eapply func_do_table|].
    by eapply IH.
Qed.

Lemma Visit_Terminator_table tok v v' :
  Visit_Terminator tok v = Ok v' -> table_grows v v'.
Proof.
  unfold Visit_Terminator. intros H. bind_inv H. bind_inv H.
  eapply table_grows_trans; [|eapply table_grows_trans].
  - instantiate (1 := snd x).
    destruct (Lex.token_ tok); try done; by eapply func_call_table.
  - by eapply func_call_table.
  - by eapply func_do_table.
Qed.

Lemma Visit_NameList_table names :
  forall v v', Visit_NameList names v = Ok v' -> table_grows v v'.
Proof.
  induction names as [|n names IH]; intros v v' H; cbn [Visit_NameList] in H.
  - injection H as <-. apply table_grows_refl.
  - destruct (Lex.token_ n); try done. bind_inv H.
    destruct (current_scope_ (scope_name_list_ v)) as [scope|] eqn:Hs; [|done].
    pose proof (AddScopeName_current_scope scope (scope_name_list_ v) (str_ n) x)
      as Hcur.
    assert (exists extra,
              name_list_ (snd (AddScopeName scope (scope_name_list_ v) (str_ n) x))
              = name_list_ (scope_name_list_ v) ++ extra) as [extra Hextra].
    { unfold AddScopeName.
      destruct (IsBelongsToScope scope (scope_name_list_ v) (str_ n));
        cbn [snd name_list_]; [exists []; by rewrite app_nil_r | by eexists]. }
    destruct (AddScopeName scope (scope_name_list_ v) (str_ n) x)
      as [[added reg] snl].
    cbn [snd] in Hcur, Hextra. bind_inv H.
    apply IH in H. eapply table_grows_trans; [|exact H].
    assert (table_grows v (set_scope_name_list snl v)) as Hg
      by (split; [done | by exists extra]).
    destruct added.
    + bind_inv E0. injection E0 as <-.
      eapply table_grows_trans; [exact Hg|].
      apply func_call_table in E1. exact E1.
    + by injection E0 as <-.
Qed.

Lemma visit_each_table ss :
  Forall (fun t => forall v v', Visit t v = Ok v' -> table_grows v v') ss ->
  forall v v', visit_each Visit ss v = Ok v' -> table_grows v v'.
Proof.
  induction 1 as [|t ss Ht _ IH]; intros v v' H; cbn [visit_each] in H.
  - injection H as <-. apply table_grows_refl.
  - bind_inv H. eapply table_grows_trans; [by apply Ht | by apply IH].
Qed.

Lemma visit_opt_table o :
  (forall t, o = Some t -> forall v v', Visit t v = Ok v' -> table_grows v v') ->
  forall v v', visit_opt Visit o v = Ok v' -> table_grows v v'.
Proof.
  intros Ho v v' H. destruct o as [t|]; cbn [visit_opt] in H.
  - by apply (Ho t).
  - injection H as <-. apply table_grows_refl.
Qed.

Lemma ExpressionList_loop_table es :
  Forall (fun t => forall v v', Visit t v = Ok v' -> table_grows v v') es ->
  forall reg v v',
    ExpressionList_loop Visit es reg v = Ok v' -> table_grows v v'.
Proof.
  induction 1 as [|t es Ht _ IH]; intros reg v v' H;
    cbn [ExpressionList_loop] in H.
  - injection H as <-. apply table_grows_refl.
  - bind_inv H. bind_inv H. bind_inv H.
    eapply table_grows_trans; [by eapply func_do_table|].
    eapply table_grows_trans; [by eapply func_do_table|].
    eapply table_grows_trans; [by apply Ht | by eapply IH].
Qed.

(** The scope opened by a [Block] is closed over a table that has only
    grown since: the destructor gives back the table and the innermost
    scope from before the block. *)
Lemma Visit_Block_table ss r :
  Forall (fun t => forall v v', Visit t v = Ok v' -> table_grows v v') ss ->
  (forall t, r = Some t -> forall v v', Visit t v = Ok v' -> table_grows v v') ->
  forall v v',
    Visit (Block ss r) v = Ok v' -> scope_name_list_ v' = scope_name_list_ v.
Proof.
  intros Hss Hr v v' H.
  change (Visit (Block ss r) v) with (Visit_Block Visit ss r v) in H.
  unfold Visit_Block in H. bind_inv H. destruct x as [this snl].
  destruct (NameScope_new_inv _ _ _ _ E) as (-> & Hprev & Hstart).
  cbn [fst snd] in H. bind_inv H. bind_inv H. bind_inv H. bind_inv H.
  bind_inv H. injection H as <-.
  apply visit_each_table in E1; [|done].
  apply (visit_opt_table r Hr) in E2.
  apply func_do_table in E3. apply func_do_table in E4.
  pose proof (table_grows_trans _ _ _
                (table_grows_trans _ _ _
                   (table_grows_trans _ _ _ E1 E2) E3) E4) as [Hcur [extra Hx]].
  cbn [set_scope_name_list scope_name_list_ current_scope_ name_list_] in *.
  destruct (scope_name_list_ x3) as [l c] eqn:Hx3. cbn in Hx, Hcur. subst l c.
  by apply close_after_growth.
Qed.

Lemma Visit_table_grows t :
  forall v v', Visit t v = Ok v' -> table_grows v v'.
Proof.
  induction t as [b m IHb|ss r IHss IHr|n e IHn IHe|tok|names|c args IHc IHargs
                 |es IHes] using SyntaxTree_nested_ind;
    intros v v' H.
  - change (Visit (Chunk b m) v) with (Visit_Chunk Visit b m v) in H.
    unfold Visit_Chunk in H. cbn [NewFunction] in H.
    apply IHb in H. exact H.
  - apply table_grows_same. by eapply Visit_Block_table.
  - change (Visit (LocalNameListStatement n e) v)
      with (Visit_LocalNameListStatement Visit n e v) in H.
    unfold Visit_LocalNameListStatement in H.
    bind_inv H. bind_inv H. bind_inv H. bind_inv H. bind_inv H. bind_inv H.
    bind_inv H.
    apply IHn in E. apply (visit_opt_table e IHe) in E2.
    apply func_do_table in E3. apply move_names_table in E4.
    apply func_do_table in E5. apply func_do_table in H.
    eapply table_grows_trans; [exact E|].
    eapply table_grows_trans; [exact E2|].
    eapply table_grows_trans; [exact E3|].
    eapply table_grows_trans; [exact E4|].
    eapply table_grows_trans; [|exact H].
    eapply table_grows_trans; [|exact E5]. by apply table_grows_same.
  - by apply (Visit_Terminator_table tok).
  - by apply (Visit_NameList_table names).
  - change (Visit (NormalFuncCall c args) v)
      with (Visit_NormalFuncCall Visit c args v) in H.
    unfold Visit_NormalFuncCall in H.
    bind_inv H. bind_inv H. bind_inv H. bind_inv H. bind_inv H.
    apply IHc in E0. apply func_do_table in E1. apply func_do_table in E2.
    apply (visit_opt_table args IHargs) in E3. apply func_do_table in H.
    repeat (eapply table_grows_trans; [eassumption|]). apply table_grows_refl.
  - change (Visit (ExpressionList es) v)
      with (Visit_ExpressionList Visit es v) in H.
    unfold Visit_ExpressionList in H. bind_inv H.
    by eapply ExpressionList_loop_table.
Qed.

(** X7 (scopes across the lowering).  Whenever a handler returns, the
    innermost scope is the one from before and the name table has only
    been appended to; after the handler of a [Block] the table is exactly
    the one from before the block, so the names declared in the block are
    forgotten. *)
Theorem lowering_keeps_scopes t v v' :
  Visit t v = Ok v' ->
  current_scope_ (scope_name_list_ v') = current_scope_ (scope_name_list_ v) /\
  (exists extra,
     name_list_ (scope_name_list_ v') =
     name_list_ (scope_name_list_ v) ++ extra) /\
  (is_block t = true -> scope_name_list_ v' = scope_name_list_ v).
Proof.
  intros H. destruct (Visit_table_grows t v v' H) as [Hcur Hext].
  split; [exact Hcur|]. split; [exact Hext|].
  destruct t as [b m|ss r|n e|tok|names|c args|es]; try done. intros _.
  eapply Visit_Block_table; [| |exact H].
  - apply Forall_forall. intros t _. apply Visit_table_grows.
  - intros t _. apply Visit_table_grows.
Qed.

Lemma lowering_keeps_scopes_witness :
  let a := mkTokenDetail Token_Id 0 (Some 7%nat) 1 in
  let one := Terminator (mkTokenDetail Token_Number 1 nullptr 1) in
  let t := Block [LocalNameListStatement (NameList [a])
                    (Some (ExpressionList [one]))] None in
  let scope := mkNameScope None 0 (Some 0%nat) in
  let v := mkVisitor [Function_new]
             (mkScopeNameList [mkScopeName (Some 3%nat) 0] (Some scope)) []
             (Some 0%nat) in
  exists v',
    Visit t v = Ok v' /\
    current_scope_ (scope_name_list_ v') = current_scope_ (scope_name_list_ v) /\
    (exists extra,
       name_list_ (scope_name_list_ v') =
       name_list_ (scope_name_list_ v) ++ extra) /\
    (is_block t = true -> scope_name_list_ v' = scope_name_list_ v).
Proof.
  intros a one t scope v. eexists. split; [reflexivity|].
  apply (lowering_keeps_scopes t v). reflexivity.
Defined.

Lemma same_frame_generating a v f v' f' :
  generating v a f -> same_frame a v f v' f' -> generating v' a f'.
Proof.
  intros [Ha Hf] (Ha' & Hst & _). split; [done|]. rewrite Hst.
  apply list_lookup_insert_eq. by eapply lookup_lt_Some.
Qed.

Lemma frame_kept_refl a v : frame_kept a v v.
Proof.
  intros f [Ha Hf]. exists f. split; [done|].
  split; [by rewrite list_insert_id | done].
Qed.

Lemma frame_kept_trans a v v1 v2 :
  frame_kept a v v1 -> frame_kept a v1 v2 -> frame_kept a v v2.
Proof.
  intros H1 H2 f Hg. destruct (H1 f Hg) as [f1 Hf1].
  destruct (H2 f1 (same_frame_generating _ _ _ _ _ Hg Hf1)) as [f2 Hf2].
  exists f2. destruct Hf1 as (_ & Hst1 & Hs1 & Hm1 & Hl1).
  destruct Hf2 as (Ha2 & Hst2 & Hs2 & Hm2 & Hl2).
  split; [done|]. split; [by rewrite Hst2, Hst1, list_insert_insert_eq|].
  split; [congruence|]. split; congruence.
Qed.

Lemma frame_kept_same a v v' :
  state_ v' = state_ v -> func_ v' = func_ v -> frame_kept a v v'.
Proof.
  intros Hst Hfn f [Ha Hf]. exists f. split; [congruence|].
  split; [by rewrite Hst, list_insert_id | done].
Qed.

Lemma func_call_frame {A : Type} (m : Function -> A * Function) a v r :
  (forall g, superior (snd (m g)) = superior g /\
             Func.module_ (snd (m g)) = Func.module_ g /\
             Func.line_ (snd (m g)) = Func.line_ g) ->
  func_call m v = Ok r -> frame_kept a v (snd r).
Proof.
  intros Hm H f Hg. apply func_call_inv in H as (a' & f' & Hg' & ->).
  destruct (generating_inj _ _ _ _ _ Hg Hg') as [<- <-].
  exists (snd (m f)). split; [apply Hg|]. split; [done | apply Hm].
Qed.

Lemma func_do_frame (m : Function -> Function) a v v' :
  (forall g, superior (m g) = superior g /\
             Func.module_ (m g) = Func.module_ g /\
             Func.line_ (m g) = Func.line_ g) ->
  func_do m v = Ok v' -> frame_kept a v v'.
Proof.
  intros Hm H. unfold func_do in H. bind_inv H. injection H as <-.
  by eapply (func_call_frame (fun f => (tt, m f))).
Qed.

Lemma AddConst_static c g :
  superior (snd (AddConst c g)) = superior g /\
  Func.module_ (snd (AddConst c g)) = Func.module_ g /\
  Func.line_ (snd (AddConst c g)) = Func.line_ g.
Proof. unfold AddConst. by destruct (index_from c (constants g) 0). Qed.

Lemma move_names_frame a names :
  forall reg v v', move_names names reg v = Ok v' -> frame_kept a v v'.
Proof.
  induction names as [|n names IH]; intros reg v v' H; cbn [move_names] in H.
  - injection H as <-. apply frame_kept_refl.
  - bind_inv H.
    eapply frame_kept_trans; [eapply func_do_frame; [|exact E]; done|].
    by eapply IH.
Qed.

Lemma Visit_Terminator_frame a tok v v' :
  Visit_Terminator tok v = Ok v' -> frame_kept a v v'.
Proof.
  unfold Visit_Terminator. intros H. bind_inv H. bind_inv H.
  eapply frame_kept_trans; [|eapply frame_kept_trans].
  - instantiate (1 := snd x).
    destruct (Lex.token_ tok); try done;
      (eapply func_call_frame; [|exact E]); intros g; apply AddConst_static.
  - eapply func_call_frame; [|exact E0]; done.
  - eapply func_do_frame; [|exact H]; done.
Qed.

Lemma Visit_NameList_frame a names :
  forall v v', Visit_NameList names v = Ok v' -> frame_kept a v v'.
Proof.
  induction names as [|n names IH]; intros v v' H; cbn [Visit_NameList] in H.
  - injection H as <-. apply frame_kept_refl.
  - destruct (Lex.token_ n); try done. bind_inv H.
    destruct (current_scope_ (scope_name_list_ v)) as [scope|]; [|done].
    destruct (AddScopeName scope (scope_name_list_ v) (str_ n) x)
      as [[added reg] snl].
    bind_inv H. apply IH in H.
    eapply frame_kept_trans; [|eapply frame_kept_trans; [|exact H]].
    + instantiate (1 := x0). destruct added.
      * bind_inv E0. injection E0 as <-.
        eapply frame_kept_trans;
          [|eapply func_call_frame; [|exact E1]; done].
        by apply frame_kept_same.
      * injection E0 as <-. by apply frame_kept_same.
    + by apply frame_kept_same.
Qed.

Lemma visit_each_frame a ss :
  Forall (fun t => chunk_free t = true ->
                   forall v v', Visit t v = Ok v' -> frame_kept a v v') ss ->
  forallb chunk_free ss = true ->
  forall v v', visit_each Visit ss v = Ok v' -> frame_kept a v v'.
Proof.
  induction 1 as [|t ss Ht _ IH]; intros Hcf v v' H; cbn [visit_each] in H.
  - injection H as <-. apply frame_kept_refl.
  - cbn [forallb] in Hcf. apply andb_prop in Hcf as [Hct Hcf]. bind_inv H.
    eapply frame_kept_trans; [by apply Ht | by apply IH].
Qed.

Lemma visit_opt_frame a o :
  (forall t, o = Some t -> chunk_free t = true ->
             forall v v', Visit t v = Ok v' -> frame_kept a v v') ->
  match o with Some t => chunk_free t | None => true end = true ->
  forall v v', visit_opt Visit o v = Ok v' -> frame_kept a v v'.
Proof.
  intros Ho Hcf v v' H. destruct o as [t|]; cbn [visit_opt] in H.
  - by apply (Ho t).
  - injection H as <-. apply frame_kept_refl.
Qed.

Lemma ExpressionList_loop_frame a es :
  Forall (fun t => chunk_free t = true ->
                   forall v v', Visit t v = Ok v' -> frame_kept a v v') es ->
  forallb chunk_free es = true ->
  forall reg v v',
    ExpressionList_loop Visit es reg v = Ok v' -> frame_kept a v v'.
Proof.
  induction 1 as [|t es Ht _ IH]; intros Hcf reg v v' H;
    cbn [ExpressionList_loop] in H.
  - injection H as <-. apply frame_kept_refl.
  - cbn [forallb] in Hcf. apply andb_prop in Hcf as [Hct Hcf].
    bind_inv H. bind_inv H. bind_inv H.
    eapply frame_kept_trans; [eapply func_do_frame; [|exact E]; done|].
    eapply frame_kept_trans; [eapply func_do_frame; [|exact E0]; done|].
    eapply frame_kept_trans; [by apply Ht | by eapply IH].
Qed.

Lemma Visit_frame a t :
  chunk_free t = true ->
  forall v v', Visit t v = Ok v' -> frame_kept a v v'.
Proof.
  induction t as [b m IHb|ss r IHss IHr|n e IHn IHe|tok|names|c args IHc IHargs
                 |es IHes] using SyntaxTree_nested_ind;
    intros Hcf v v' H; cbn [chunk_free] in Hcf.
  - done.
  - apply andb_prop in Hcf as [Hcss Hcr].
    change (Visit (Block ss r) v) with (Visit_Block Visit ss r v) in H.
    unfold Visit_Block in H. bind_inv H. bind_inv H. bind_inv H. bind_inv H.
    bind_inv H. bind_inv H. injection H as <-.
    apply (visit_each_frame a ss IHss Hcss) in E1.
    apply (visit_opt_frame a r IHr Hcr) in E2.
    eapply frame_kept_trans; [|eapply frame_kept_trans; [exact E1|]].
    { by apply frame_kept_same. }
    eapply frame_kept_trans; [exact E2|].
    eapply frame_kept_trans; [eapply func_do_frame; [|exact E3]; done|].
    eapply frame_kept_trans; [eapply func_do_frame; [|exact E4]; done|].
    by apply frame_kept_same.
  - apply andb_prop in Hcf as [Hcn Hce].
    change (Visit (LocalNameListStatement n e) v)
      with (Visit_LocalNameListStatement Visit n e v) in H.
    unfold Visit_LocalNameListStatement in H.
    bind_inv H. bind_inv H. bind_inv H. bind_inv H. bind_inv H. bind_inv H.
    bind_inv H.
    apply (IHn Hcn) in E. apply (visit_opt_frame a e IHe Hce) in E2.
    apply (move_names_frame a) in E4.
    eapply frame_kept_trans; [exact E|].
    eapply frame_kept_trans; [exact E2|].
    eapply frame_kept_trans; [eapply func_do_frame; [|exact E3]; done|].
    eapply frame_kept_trans; [exact E4|].
    eapply (frame_kept_trans _ _ (set_names_register [] x4));
      [by apply frame_kept_same|].
    eapply frame_kept_trans; [eapply func_do_frame; [|exact E5]; done|].
    eapply func_do_frame; [|exact H]; done.
  - by apply (Visit_Terminator_frame a tok).
  - by apply (Visit_NameList_frame a names).
  - apply andb_prop in Hcf as [Hcc Hca].
    change (Visit (NormalFuncCall c args) v)
      with (Visit_NormalFuncCall Visit c args v) in H.
    unfold Visit_NormalFuncCall in H.
    bind_inv H. bind_inv H. bind_inv H. bind_inv H. bind_inv H.
    apply (IHc Hcc) in E0. apply (visit_opt_frame a args IHargs Hca) in E3.
    eapply frame_kept_trans; [exact E0|].
    eapply frame_kept_trans; [eapply func_do_frame; [|exact E1]; done|].
    eapply frame_kept_trans; [eapply func_do_frame; [|exact E2]; done|].
    eapply frame_kept_trans; [exact E3|].
    eapply func_do_frame; [|exact H]; done.
  - change (Visit (ExpressionList es) v)
      with (Visit_ExpressionList Visit es v) in H.
    unfold Visit_ExpressionList in H. bind_inv H.
    by eapply ExpressionList_loop_frame.
Qed.

(** X8 (only the current function is written).  When the handlers of a
    tree without [Chunk] return, [func_] points where it did, no function
    has been created, every function other than the current one is as it
    was, and the current function has kept its superior, module and
    line. *)
Theorem lowering_writes_one_function t a v f v' :
  chunk_free t = true ->
  generating v a f ->
  Visit t v = Ok v' ->
  exists f',
    generating v' a f' /\
    func_ v' = func_ v /\
    length (state_ v') = length (state_ v) /\
    (forall b, b <> a -> state_ v' !! b = state_ v !! b) /\
    superior f' = superior f /\
    Func.module_ f' = Func.module_ f /\
    Func.line_ f' = Func.line_ f.
Proof.
  intros Hcf Hg H.
  destruct (Visit_frame a t Hcf v v' H f Hg) as [f' Hf'].
  exists f'. split; [by eapply same_frame_generating|].
  destruct Hf' as (Ha & Hst & Hs & Hm & Hl), Hg as [Ha0 _].
  split; [congruence|]. rewrite Hst.
  split; [by rewrite length_insert|].
  split; [|done]. intros b Hb. by rewrite list_lookup_insert_ne.
Qed.

Lemma lowering_writes_one_function_witness :
  let one := Terminator (mkTokenDetail Token_Number 1 nullptr 1) in
  let t := Block [NormalFuncCall one (Some (ExpressionList [one]))] None in
  let g := SetSuperior (Some 0%nat) Function_new in
  let v := mkVisitor [Function_new; g] ScopeNameList_new [] (Some 1%nat) in
  exists v' f',
    Visit t v = Ok v' /\
    generating v' 1%nat f' /\
    func_ v' = func_ v /\
    length (state_ v') = length (state_ v) /\
    (forall b, b <> 1%nat -> state_ v' !! b = state_ v !! b) /\
    superior f' = superior g /\
    Func.module_ f' = Func.module_ g /\
    Func.line_ f' = Func.line_ g.
Proof.
  intros one t g v. eexists.
  destruct (lowering_writes_one_function t 1%nat v g
              (mkVisitor
                 [Function_new;
                  mkFunction 0 2 [ConstNumber 1]
                    [(ABCode OpType_LoadConst 0 0, 1); (ACode OpType_SetTop 1, 0);
                     (ACode OpType_SetTop 1, 0); (ABCode OpType_LoadConst 1 0, 1);
                     (ACode OpType_Call 0, 0); (ACode OpType_SetTop 0, 0)]
                    (Some 0%nat) nullptr 0]
                 ScopeNameList_new [] (Some 1%nat)))
    as (f' & H).
  - reflexivity.
  - split; reflexivity.
  - reflexivity.
  - exists f'. split; [reflexivity | exact H].
Defined.

End LoweringEffects.

Section LoweringEdges.

Import Scope Func Lex Gen.

Lemma func_get_null {A : Type} (m : Function -> A) v :
  func_ v = None -> func_get m v = Fault NullDereference.
Proof. intros H. unfold func_get, current_function. by rewrite H. Qed.

Lemma func_call_null {A : Type} (m : Function -> A * Function) v :
  func_ v = None -> func_call m v = Fault NullDereference.
Proof. intros H. unfold func_call, current_function. by rewrite H. Qed.

(** X9 (no function yet).  While [func_] is null, as it is in a new
    visitor, the handler of every well-formed node other than the empty
    [NameList] ends in a null dereference: a [Block] does so whether or not
    a scope is open.  Code generation has to enter through a [Chunk]. *)
Theorem lowering_needs_a_function t v :
  well_formed t = true ->
  t <> NameList [] ->
  func_ v = None ->
  Visit t v = Fault NullDereference.
Proof.
  revert v.
  induction t as [b m _|ss r _ _|n e IHn _|tok|names|c args _ _|es _]
    using SyntaxTree_nested_ind; intros v Hwf Hne Hnull.
  - done.
  - change (Visit (Block ss r) v) with (Visit_Block Visit ss r v).
    unfold Visit_Block, NameScope_new. rewrite Hnull.
    destruct (current_scope_ (scope_name_list_ v)) as [p|]; [|done].
    cbn [bind fst snd]. by rewrite func_get_null.
  - change (Visit (LocalNameListStatement n e) v)
      with (Visit_LocalNameListStatement Visit n e v).
    unfold Visit_LocalNameListStatement.
    cbn [well_formed] in Hwf. apply andb_prop in Hwf as [Hwn _].
    assert (n = NameList [] \/ n <> NameList []) as [->|Hn].
    { destruct n as [| | | |[|]| |]; (by left) || (by right). }
    + cbn [Visit Visit_NameList bind]. by rewrite func_get_null.
    + by rewrite (IHn v Hwn Hn Hnull).
  - cbn [well_formed] in Hwf. apply bool_decide_eq_true in Hwf.
    change (Visit (Terminator tok) v) with (Visit_Terminator tok v).
    unfold Visit_Terminator.
    destruct Hwf as [-> | ->]; by rewrite func_call_null.
  - destruct names as [|n names]; [done|].
    cbn [well_formed forallb] in Hwf. apply andb_prop in Hwf as [Hn _].
    apply bool_decide_eq_true in Hn.
    cbn [Visit Visit_NameList]. rewrite Hn. by rewrite func_get_null.
  - change (Visit (NormalFuncCall c args) v)
      with (Visit_NormalFuncCall Visit c args v).
    unfold Visit_NormalFuncCall. by rewrite func_get_null.
  - change (Visit (ExpressionList es) v)
      with (Visit_ExpressionList Visit es v).
    unfold Visit_ExpressionList. by rewrite func_get_null.
Qed.

Lemma lowering_needs_a_function_witness :
  Visit (Block [] None) (CodeGenerateVisitor_new [Function_new])
    = Fault NullDereference.
Proof.
  apply (lowering_needs_a_function (Block [] None)
           (CodeGenerateVisitor_new [Function_new])).
  - reflexivity.
  - discriminate.
  - reflexivity.
Defined.

Lemma Visit_empty_ExpressionList_after m v v' :
  func_do m v = Ok v' -> Visit (ExpressionList []) v' = Ok v'.
Proof.
  intros H. apply func_do_inv in H as (a & f & Hg & ->).
  change (Visit (ExpressionList []) (set_function a (m f) v))
    with (Visit_ExpressionList Visit [] (set_function a (m f) v)).
  unfold Visit_ExpressionList.
  by rewrite (func_get_ok GetNextRegister _ a (m f))
    by (by eapply generating_set_function).
Qed.

(** X10 (empty lists).  An empty expression list emits nothing, so a call
    whose argument list is absent and a call whose argument list is empty
    are lowered alike, result and faults included; likewise a local
    declaration without initializers and one with an empty initializer
    list. *)
Theorem empty_list_is_no_list c n v :
  Visit (NormalFuncCall c (Some (ExpressionList []))) v
    = Visit (NormalFuncCall c None) v /\
  Visit (LocalNameListStatement n (Some (ExpressionList []))) v
    = Visit (LocalNameListStatement n None) v.
Proof.
  split.
  - change (Visit (NormalFuncCall c (Some (ExpressionList []))) v)
      with (Visit_NormalFuncCall Visit c (Some (ExpressionList [])) v).
    change (Visit (NormalFuncCall c None) v)
      with (Visit_NormalFuncCall Visit c None v).
    unfold Visit_NormalFuncCall.
    destruct (func_get GetNextRegister v) as [reg|]; [|done]. cbn [bind].
    destruct (Visit c v) as [v1|]; [|done]. cbn [bind].
    destruct (func_do (SetNextRegister (reg + 1)) v1) as [v2|]; [|done].
    cbn [bind].
    destruct (func_do (AddInstruction (ACode OpType_SetTop (reg + 1)) 0) v2)
      as [v3|] eqn:E; [|done].
    cbn [bind visit_opt]. by rewrite (Visit_empty_ExpressionList_after _ _ _ E).
  - change (Visit (LocalNameListStatement n (Some (ExpressionList []))) v)
      with (Visit_LocalNameListStatement Visit n (Some (ExpressionList [])) v).
    change (Visit (LocalNameListStatement n None) v)
      with (Visit_LocalNameListStatement Visit n None v).
    unfold Visit_LocalNameListStatement.
    destruct (Visit n v) as [v1|]; [|done]. cbn [bind].
    destruct (func_get GetNextRegister v1) as [reg|] eqn:E; [|done].
    cbn [bind].
    destruct (func_get GetRegisterCount v1) as [cnt|]; [|done].
    cbn [bind visit_opt].
    change (Visit (ExpressionList []) v1)
      with (Visit_ExpressionList Visit [] v1).
    unfold Visit_ExpressionList. by rewrite E.
Qed.

Lemma IsBelongsToScope_kept this nl nl' name r extra :
  name_list_ nl' = name_list_ nl ++ extra ->
  IsBelongsToScope this nl name = Some r ->
  IsBelongsToScope this nl' name = Some r.
Proof.
  unfold IsBelongsToScope. intros -> Hr. by rewrite drop_app, scan_app, Hr.
Qed.

(** X11 (registers of a name list).  In a scope that starts within the
    table, the handler of a [NameList] of identifiers appends to
    [names_register_] one entry per name, in order and with the name's
    token; afterwards each of these names is held by the current scope
    with the register recorded for it; and the next register has advanced
    by the number of entries added to the name table. *)
Theorem name_list_records_registers names :
  forall a v f scope,
    forallb (fun n => bool_decide (Lex.token_ n = Token_Id)) names = true ->
    generating v a f ->
    current_scope_ (scope_name_list_ v) = Some scope ->
    (start_ scope <= length (name_list_ (scope_name_list_ v)))%nat ->
    exists v' f' new,
      Visit (NameList names) v = Ok v' /\
      generating v' a f' /\
      names_register_ v' = names_register_ v ++ new /\
      map token_ new = names /\
      (forall nr, nr ∈ new ->
         IsBelongsToScope scope (scope_name_list_ v') (str_ (token_ nr))
           = Some (register_ nr)) /\
      next_register f' =
        next_register f +
        Z.of_nat (length (name_list_ (scope_name_list_ v')) -
                  length (name_list_ (scope_name_list_ v))).
Proof.
  induction names as [|n names IH]; intros a v f scope Hid Hg Hs Hstart.
  - exists v, f, []. split; [done|]. split; [done|].
    split; [by rewrite app_nil_r|]. split; [done|].
    split; [by intros nr Hnr; inversion Hnr|].
    rewrite Nat.sub_diag. simpl. lia.
  - cbn [forallb] in Hid. apply andb_prop in Hid as [Hn Hid].
    apply bool_decide_eq_true in Hn.
    change (Visit (NameList (n :: names)) v)
      with (Visit_NameList (n :: names) v).
    cbn [Visit_NameList]. rewrite Hn.
    rewrite (func_get_ok GetNextRegister v a f Hg). cbn [bind]. rewrite Hs.
    unfold AddScopeName, GetNextRegister.
    destruct (IsBelongsToScope scope (scope_name_list_ v) (str_ n))
      as [r0|] eqn:Hr0.
    + cbn [bind]. rewrite set_scope_name_list_same.
      destruct (IH a (set_names_register
                        (names_register_ v ++ [mkNameReg r0 n]) v) f scope
                  Hid Hg Hs Hstart)
        as (v' & f' & new & Hrun & Hg' & Hnames & Htok & Hreg & Hnext).
      exists v', f', (mkNameReg r0 n :: new).
      split; [exact Hrun|]. split; [exact Hg'|].
      split; [by rewrite Hnames; cbn; rewrite <- app_assoc|].
      split; [by cbn; rewrite Htok|]. split; [|exact Hnext].
      intros nr Hnr. apply elem_of_cons in Hnr as [->|Hnr]; [|by apply Hreg].
      destruct (Visit_NameList_table names _ _ Hrun) as [_ [extra Hextra]].
      by eapply IsBelongsToScope_kept.
    + rewrite (func_call_ok AllocaNextRegister _ a f) by done.
      cbn [bind snd].
      set (snl1 := mkScopeNameList
                     (name_list_ (scope_name_list_ v) ++
                      [mkScopeName (str_ n) (next_register f)])
                     (current_scope_ (scope_name_list_ v))).
      set (v1 := set_names_register _ _).
      assert (generating v1 a (snd (AllocaNextRegister f))) as Hg1.
      { apply generating_names.
        by apply (generating_set_function (set_scope_name_list snl1 v) a f). }
      destruct (IH a v1 (snd (AllocaNextRegister f)) scope Hid Hg1 Hs)
        as (v' & f' & new & Hrun & Hg' & Hnames & Htok & Hreg & Hnext).
      { cbn. rewrite length_app. lia. }
      exists v', f', (mkNameReg (next_register f) n :: new).
      split; [exact Hrun|]. split; [exact Hg'|].
      split; [by rewrite Hnames; cbn; rewrite <- app_assoc|].
      split; [by cbn; rewrite Htok|]. split.
      * intros nr Hnr. apply elem_of_cons in Hnr as [->|Hnr]; [|by apply Hreg].
        destruct (Visit_NameList_table names _ _ Hrun) as [_ [extra Hextra]].
        eapply IsBelongsToScope_kept; [exact Hextra|].
        by apply (IsBelongsToScope_appended scope (scope_name_list_ v)).
      * destruct (Visit_NameList_table names _ _ Hrun) as [_ [extra Hextra]].
        rewrite Hnext. rewrite Hextra. cbn. rewrite !length_app. cbn. lia.
Qed.

Lemma name_list_records_registers_witness :
  let a := mkTokenDetail Token_Id 0 (Some 7%nat) 1 in
  let b := mkTokenDetail Token_Id 0 (Some 8%nat) 2 in
  let scope := mkNameScope None 0 (Some 0%nat) in
  let v := mkVisitor [Function_new] (mkScopeNameList [] (Some scope)) []
                     (Some 0%nat) in
  exists v' f' new,
    Visit (NameList [a; b; a]) v = Ok v' /\
    generating v' 0%nat f' /\
    names_register_ v' = names_register_ v ++ new /\
    map token_ new = [a; b; a] /\
    (forall nr, nr ∈ new ->
       IsBelongsToScope scope (scope_name_list_ v') (str_ (token_ nr))
         = Some (register_ nr)) /\
    next_register f' =
      next_register Function_new +
      Z.of_nat (length (name_list_ (scope_name_list_ v')) -
                length (name_list_ (scope_name_list_ v))).
Proof.
  intros a b scope v.
  apply (name_list_records_registers [a; b; a] 0%nat v Function_new scope).
  - reflexivity.
  - split; reflexivity.
  - reflexivity.
  - simpl. lia.
Defined.

(** X12 (new names take consecutive registers).  When the identifiers
    of a [NameList] are pairwise different pointers and none is held by
    the current scope, the handler binds the [i]-th name to the register
    [R + i], [R] being the next register at entry: these bindings are
    appended to the name table and recorded in [names_register_] in order,
    and the next register ends at [R] plus the number of names. *)
Theorem new_names_take_consecutive_registers names :
  forall a v f scope,
    forallb (fun n => bool_decide (Lex.token_ n = Token_Id)) names = true ->
    generating v a f ->
    current_scope_ (scope_name_list_ v) = Some scope ->
    NoDup (map str_ names) ->
    (forall n, n ∈ names ->
       IsBelongsToScope scope (scope_name_list_ v) (str_ n) = None) ->
    exists v' f',
      Visit (NameList names) v = Ok v' /\
      generating v' a f' /\
      next_register f' = next_register f + Z.of_nat (length names) /\
      name_list_ (scope_name_list_ v') =
        name_list_ (scope_name_list_ v) ++
        imap (fun i n => mkScopeName (str_ n) (next_register f + Z.of_nat i))
             names /\
      names_register_ v' =
        names_register_ v ++
        imap (fun i n => mkNameReg (next_register f + Z.of_nat i) n) names.
Proof.
  induction names as [|n names IH]; intros a v f scope Hid Hg Hs Hdup Hnew.
  - exists v, f. split; [done|]. split; [done|]. cbn.
    rewrite !app_nil_r. split; [lia | done].
  - cbn [forallb] in Hid. apply andb_prop in Hid as [Hn Hid].
    apply bool_decide_eq_true in Hn.
    cbn [map] in Hdup. apply NoDup_cons in Hdup as [Hnotin Hdup].
    change (Visit (NameList (n :: names)) v)
      with (Visit_NameList (n :: names) v).
    cbn [Visit_NameList]. rewrite Hn.
    rewrite (func_get_ok GetNextRegister v a f Hg). cbn [bind]. rewrite Hs.
    unfold AddScopeName, GetNextRegister.
    rewrite (Hnew n) by left.
    rewrite (func_call_ok AllocaNextRegister _ a f) by done.
    cbn [bind snd].
    set (snl1 := mkScopeNameList
                   (name_list_ (scope_name_list_ v) ++
                    [mkScopeName (str_ n) (next_register f)])
                   (current_scope_ (scope_name_list_ v))).
    set (v1 := set_names_register _ _).
    assert (generating v1 a (snd (AllocaNextRegister f))) as Hg1.
    { apply generating_names.
      by apply (generating_set_function (set_scope_name_list snl1 v) a f). }
    destruct (IH a v1 (snd (AllocaNextRegister f)) scope Hid Hg1 Hs Hdup)
      as (v' & f' & Hrun & Hg' & Hnext & Htable & Hnames).
    { intros n' Hn'. cbn [v1 set_names_register scope_name_list_
                          set_function set_scope_name_list].
      unfold IsBelongsToScope, snl1. cbn [name_list_].
      rewrite scan_drop_snoc; [by apply Hnew; right|].
      intros Heq. apply Hnotin. rewrite Heq.
      apply list_elem_of_fmap. by exists n'. }
    exists v', f'. split; [exact Hrun|]. split; [exact Hg'|].
    cbn [AllocaNextRegister snd next_register] in Hnext, Htable, Hnames.
    split; [rewrite Hnext; cbn [length]; lia|].
    split.
    + rewrite Htable. cbn. rewrite <- app_assoc. cbn. rewrite Z.add_0_r.
      do 2 f_equal. apply imap_ext. intros i x _. cbn. f_equal. lia.
    + rewrite Hnames. cbn. rewrite <- app_assoc. cbn. rewrite Z.add_0_r.
      do 2 f_equal. apply imap_ext. intros i x _. cbn. f_equal. lia.
Qed.

Lemma new_names_take_consecutive_registers_witness :
  let a := mkTokenDetail Token_Id 0 (Some 7%nat) 1 in
  let b := mkTokenDetail Token_Id 0 (Some 8%nat) 2 in
  let scope := mkNameScope None 0 (Some 0%nat) in
  let f := SetNextRegister 3 Function_new in
  let v := mkVisitor [f] (mkScopeNameList [] (Some scope)) [] (Some 0%nat) in
  exists v' f',
    Visit (NameList [a; b]) v = Ok v' /\
    generating v' 0%nat f' /\
    next_register f' = 3 + 2 /\
    name_list_ (scope_name_list_ v') =
      [mkScopeName (Some 7%nat) 3; mkScopeName (Some 8%nat) 4] /\
    names_register_ v' = [mkNameReg 3 a; mkNameReg 4 b].
Proof.
  intros a b scope f v.
  apply (new_names_take_consecutive_registers [a; b] 0%nat v f scope).
  - reflexivity.
  - split; reflexivity.
  - reflexivity.
  - apply NoDup_cons. split; [|apply NoDup_singleton].
    intros H. apply list_elem_of_singleton in H. discriminate.
  - intros n _. reflexivity.
Defined.

Lemma move_names_exact names :
  forall reg a v f,
    generating v a f ->
    exists g,
      move_names names reg v = Ok (set_function a g v) /\
      next_register g = next_register f /\
      register_count g = register_count f /\
      constants g = constants f /\
      instructions g =
        instructions f ++
        imap (fun i nr =>
                (ABCode OpType_Move (register_ nr) (reg + Z.of_nat i),
                 Lex.line_ (token_ nr))) names.
Proof.
  induction names as [|n names IH]; intros reg a v f Hg.
  - exists f. cbn [move_names imap]. rewrite app_nil_r.
    split; [|done]. unfold set_function.
    destruct Hg as [_ Hf], v as [st snl nr fn]. cbn in *.
    by rewrite list_insert_id.
  - cbn [move_names]. rewrite (func_do_ok _ v a f Hg). cbn [bind].
    edestruct (IH (reg + 1) a) as (g & Hrun & Hn & Hr & Hc & Hi);
      [by eapply generating_set_function|].
    exists g. rewrite Hrun, set_function_twice.
    split; [done|]. split; [done|]. split; [done|]. split; [done|].
    rewrite Hi. cbn. rewrite <- app_assoc. cbn. rewrite Z.add_0_r.
    do 2 f_equal. apply imap_ext. intros i x _. cbn. do 2 f_equal. lia.
Qed.

(** X13 (moves of a local declaration).  The handler of a well-formed
    [LocalNameListStatement] runs to completion and, after the code of the
    names and of the initializers, emits one move per entry of
    [names_register_], in order, the [i]-th from register [reg + i] into
    the entry's register with the line of the entry's token, [reg] being
    the next register after the names were lowered; then one set-stack-top
    at [reg].  It leaves [names_register_] empty, the next register at
    [reg], and the constants and the name table as the initializers left
    them. *)
Theorem local_statement_moves n e a v f :
  well_formed (LocalNameListStatement n e) = true ->
  generating v a f ->
  is_Some (current_scope_ (scope_name_list_ v)) ->
  exists v1 f1 v2 f2 v' f',
    Visit n v = Ok v1 /\ generating v1 a f1 /\
    visit_opt Visit e v1 = Ok v2 /\ generating v2 a f2 /\
    Visit (LocalNameListStatement n e) v = Ok v' /\ generating v' a f' /\
    names_register_ v' = [] /\
    scope_name_list_ v' = scope_name_list_ v2 /\
    next_register f' = next_register f1 /\
    constants f' = constants f2 /\
    instructions f' =
      instructions f2 ++
      imap (fun i nr =>
              (ABCode OpType_Move (register_ nr)
                 (next_register f1 + Z.of_nat i),
               Lex.line_ (token_ nr))) (names_register_ v2) ++
      [(ACode OpType_SetTop (next_register f1), 0)].
Proof.
  intros Hwf Hg Hs.
  cbn [well_formed] in Hwf. apply andb_prop in Hwf as [Hwn Hwe].
  destruct (Visit_runs n Hwn a v f Hg (or_introl Hs)) as (v1 & f1 & Hrun1 & Hl1).
  destruct (visit_opt_lowered e (fun t _ H => Visit_runs t H) Hwe a v1 f1
              (proj1 Hl1) (lowered_scope _ _ _ _ _ Hl1 Hs))
    as (v2 & f2 & Hrun2 & Hl2).
  set (f3 := SetRegisterCount
               (register_count f1 + Z.of_nat (length (names_register_ v2))) f2).
  assert (generating (set_function a f3 v2) a f3) as Hg3
    by (eapply generating_set_function; exact (proj1 Hl2)).
  destruct (move_names_exact (names_register_ v2) (next_register f1) a
              (set_function a f3 v2) f3 Hg3)
    as (g & Hmove & Hgn & Hgr & Hgc & Hgi).
  exists v1, f1, v2, f2. eexists _,
    (AddInstruction (ACode OpType_SetTop (next_register f1)) 0
       (SetNextRegister (next_register f1) g)).
  split; [exact Hrun1|]. split; [exact (proj1 Hl1)|].
  split; [exact Hrun2|]. split; [exact (proj1 Hl2)|].
  assert (generating (set_names_register [] (set_function a g v2)) a g)
    as Hg4 by (apply generating_names; eapply generating_set_function;
               exact (proj1 Hl2)).
  split.
  { change (Visit (LocalNameListStatement n e) v)
      with (Visit_LocalNameListStatement Visit n e v).
    unfold Visit_LocalNameListStatement. rewrite Hrun1. cbn [bind].
    rewrite (func_get_ok GetNextRegister v1 a f1 (proj1 Hl1)). cbn [bind].
    rewrite (func_get_ok GetRegisterCount v1 a f1 (proj1 Hl1)). cbn [bind].
    rewrite Hrun2. cbn [bind].
    rewrite (func_do_ok _ v2 a f2 (proj1 Hl2)). cbn [bind].
    unfold GetNextRegister, GetRegisterCount. fold f3.
    change (names_register_ (set_function a f3 v2)) with (names_register_ v2).
    rewrite Hmove. cbn [bind]. rewrite set_function_twice.
    rewrite (func_do_ok _ _ a g Hg4). cbn [bind].
    erewrite func_do_ok by (eapply generating_set_function; exact Hg4).
    by rewrite set_function_twice. }
  split; [eapply generating_set_function; exact Hg4|].
  split; [done|]. split; [done|]. split; [done|].
  split; [by cbn; rewrite Hgc|].
  cbn. rewrite Hgi. cbn. by rewrite <- app_assoc.
Qed.

Lemma local_statement_moves_witness :
  let a := mkTokenDetail Token_Id 0 (Some 7%nat) 1 in
  let b := mkTokenDetail Token_Id 0 (Some 8%nat) 2 in
  let one := Terminator (mkTokenDetail Token_Number 1 nullptr 3) in
  let scope := mkNameScope None 0 (Some 0%nat) in
  let v := mkVisitor [Function_new] (mkScopeNameList [] (Some scope)) []
                     (Some 0%nat) in
  exists v' f',
    Visit (LocalNameListStatement (NameList [a; b])
             (Some (ExpressionList [one]))) v = Ok v' /\
    generating v' 0%nat f' /\
    names_register_ v' = [] /\
    next_register f' = 2 /\
    instructions f' =
      [(ACode OpType_SetTop 2, 0); (ABCode OpType_LoadConst 2 0, 3);
       (ABCode OpType_Move 0 2, 1); (ABCode OpType_Move 1 3, 2);
       (ACode OpType_SetTop 2, 0)].
Proof.
  intros a b one scope v.
  destruct (local_statement_moves (NameList [a; b])
              (Some (ExpressionList [one])) 0%nat v Function_new)
    as (v1 & f1 & v2 & f2 & v' & f' & Hrun1 & Hg1 & Hrun2 & Hg2 & Hrun & Hg'
        & Hnames & _ & Hnext & _ & Hcode).
  - reflexivity.
  - split; reflexivity.
  - by eexists.
  - injection Hrun1 as <-. destruct Hg1 as [_ [= <-]].
    injection Hrun2 as <-. destruct Hg2 as [_ [= <-]].
    exists v', f'. split; [exact Hrun|]. split; [exact Hg'|].
    split; [exact Hnames|]. split; [exact Hnext | exact Hcode].
Defined.

Lemma well_formed_chunk_free t :
  well_formed t = true -> chunk_free t = true.
Proof.
  induction t as [b m _|ss r IHss IHr|n e IHn IHe|tok|names|c args IHc IHargs
                 |es IHes] using SyntaxTree_nested_ind;
    cbn [well_formed chunk_free]; intros Hwf; try done.
  - apply andb_prop in Hwf as [Hss Hr]. apply andb_true_intro. split.
    + apply forallb_forall. intros t Ht.
      rewrite Forall_forall in IHss. apply list_elem_of_In in Ht.
      apply IHss; [done|].
      rewrite forallb_forall in Hss. by apply Hss, list_elem_of_In.
    + destruct r as [x|]; [by apply (IHr x)|done].
  - apply andb_prop in Hwf as [Hn He]. apply andb_true_intro.
    split; [by apply IHn|]. destruct e as [x|]; [by apply (IHe x)|done].
  - apply andb_prop in Hwf as [Hc Ha]. apply andb_true_intro.
    split; [by apply IHc|]. destruct args as [x|]; [by apply (IHargs x)|done].
  - apply forallb_forall. intros t Ht.
    rewrite Forall_forall in IHes. apply list_elem_of_In in Ht.
    apply IHes; [done|].
    rewrite forallb_forall in Hwf. by apply Hwf, list_elem_of_In.
Qed.

(** X14 (a chunk with a block).  From any visitor, the handler of a
    [Chunk] whose body is a well-formed [Block] runs to completion.  It
    adds one function at the end of the state, leaving the older functions
    as they were, and leaves [func_] on it; that function has the function
    that was current as superior, the chunk's module and line 0; its next
    register is back at 0 and its last instruction is set-stack-top 0; and
    the name table and the innermost scope are those from before. *)
Theorem chunk_lowers_its_block ss r m v :
  well_formed (Block ss r) = true ->
  exists v' f',
    Visit (Chunk (Block ss r) m) v = Ok v' /\
    func_ v' = Some (length (state_ v)) /\
    state_ v' = state_ v ++ [f'] /\
    superior f' = func_ v /\
    Func.module_ f' = m /\
    Func.line_ f' = 0 /\
    next_register f' = 0 /\
    last (instructions f') = Some (ACode OpType_SetTop 0, 0) /\
    scope_name_list_ v' = scope_name_list_ v.
Proof.
  intros Hwf.
  set (new := length (state_ v)).
  set (f0 := SetSuperior (func_ v) (SetBaseInfo m 0 Function_new)).
  set (v1 := mkVisitor (state_ v ++ [f0]) (scope_name_list_ v)
               (names_register_ v) (Some new)).
  assert (generating v1 new f0) as Hg1.
  { split; [done|]. simpl. by apply list_lookup_middle. }
  assert (Visit (Chunk (Block ss r) m) v = Visit (Block ss r) v1) as Hchunk.
  { change (Visit (Chunk (Block ss r) m) v)
      with (Visit_Chunk Visit (Block ss r) m v).
    unfold Visit_Chunk, NewFunction. by rewrite !alter_last. }
  destruct (Visit_Block_steps ss r (Forall_runs ss)
              (fun t _ H => Visit_runs t H) Hwf new v1 f0 Hg1)
    as (this & u1 & g1 & u2 & g2 & _ & _ & _ & _ & _ & Hl2 & Hrun).
  set (g := AddInstruction (ACode OpType_SetTop (next_register f0)) 0
              (SetNextRegister (next_register f0) g2)) in Hrun.
  set (v' := set_scope_name_list _ _) in Hrun.
  assert (generating v' new g) as Hg'
    by (eapply generating_scope, generating_set_function; exact (proj1 Hl2)).
  destruct (Visit_frame new (Block ss r) (well_formed_chunk_free _ Hwf)
              v1 v' Hrun f0 Hg1) as (f' & Hframe).
  destruct (generating_inj _ _ _ _ _ Hg'
              (same_frame_generating _ _ _ _ _ Hg1 Hframe)) as [_ <-].
  destruct Hframe as (Hfn & Hst & Hsup & Hmod & Hline).
  exists v', g. rewrite Hchunk. split; [exact Hrun|]. split; [exact Hfn|].
  split.
  { rewrite Hst. cbn [v1 state_]. unfold new.
    rewrite insert_app_r_alt by lia. by rewrite Nat.sub_diag. }
  split; [by rewrite Hsup|]. split; [by rewrite Hmod|].
  split; [by rewrite Hline|]. split; [done|].
  split; [cbn; by rewrite last_snoc|].
  change (scope_name_list_ v) with (scope_name_list_ v1).
  eapply Visit_Block_table; [| |exact Hrun].
  - apply Forall_forall. intros t _. apply Visit_table_grows.
  - intros t _. apply Visit_table_grows.
Qed.

Lemma chunk_lowers_its_block_witness :
  let a := mkTokenDetail Token_Id 0 (Some 7%nat) 1 in
  let one := Terminator (mkTokenDetail Token_Number 1 nullptr 1) in
  let v := CodeGenerateVisitor_new [] in
  exists v' f',
    Visit (Chunk (Block [LocalNameListStatement (NameList [a])
                           (Some (ExpressionList [one]))] None)
                 (Some 2%nat)) v = Ok v' /\
    func_ v' = Some 0%nat /\
    state_ v' = [f'] /\
    superior f' = nullptr /\
    Func.module_ f' = Some 2%nat /\
    Func.line_ f' = 0 /\
    next_register f' = 0 /\
    last (instructions f') = Some (ACode OpType_SetTop 0, 0) /\
    scope_name_list_ v' = ScopeNameList_new.
Proof.
  intros a one v.
  apply (chunk_lowers_its_block
           [LocalNameListStatement (NameList [a]) (Some (ExpressionList [one]))]
           None (Some 2%nat) v).
  reflexivity.
Defined.

Lemma Visit_NameList_assert names :
  forallb (fun n => bool_decide (Lex.token_ n = Token_Id)) names = false ->
  forall a v f,
    generating v a f ->
    is_Some (current_scope_ (scope_name_list_ v)) ->
    Visit_NameList names v = Fault AssertFailure.
Proof.
  induction names as [|n names IH]; intros Hbad a v f Hg Hs; [done|].
  cbn [forallb] in Hbad. cbn [Visit_NameList].
  destruct (bool_decide (Lex.token_ n = Token_Id)) eqn:Hn.
  - apply bool_decide_eq_true in Hn. rewrite Hn. cbn [andb] in Hbad.
    destruct Hs as [s Hs].
    rewrite (func_get_ok GetNextRegister v a f Hg). cbn [bind]. rewrite Hs.
    pose proof (AddScopeName_current s (scope_name_list_ v) (str_ n)
                  (GetNextRegister f)) as Hcur.
    destruct (AddScopeName s (scope_name_list_ v) (str_ n) (GetNextRegister f))
      as [[added reg] snl].
    cbn [snd] in Hcur. destruct added.
    + rewrite (func_call_ok AllocaNextRegister _ a f) by done. cbn [bind snd].
      eapply (IH Hbad a).
      * apply generating_names.
        by apply (generating_set_function (set_scope_name_list snl v) a f).
      * simpl. rewrite Hcur, Hs. by eexists.
    + cbn [bind]. eapply (IH Hbad a).
      * apply generating_names, generating_scope. exact Hg.
      * simpl. rewrite Hcur, Hs. by eexists.
  - apply bool_decide_eq_false in Hn. by destruct (Lex.token_ n).
Qed.

Lemma visit_each_assert ss :
  Forall (fun t =>
            chunk_free t = true ->
            forall a v f,
              generating v a f ->
              is_Some (current_scope_ (scope_name_list_ v)) \/ is_block t = true ->
              well_formed t = false -> Visit t v = Fault AssertFailure) ss ->
  forallb chunk_free ss = true ->
  forallb well_formed ss = false ->
  forall a v f,
    generating v a f ->
    is_Some (current_scope_ (scope_name_list_ v)) ->
    visit_each Visit ss v = Fault AssertFailure.
Proof.
  induction 1 as [|t ss Ht _ IH]; intros Hcf Hbad a v f Hg Hs; [done|].
  cbn [forallb] in Hcf, Hbad. apply andb_prop in Hcf as [Hct Hcf].
  cbn [visit_each]. destruct (well_formed t) eqn:Hwt.
  - destruct (Visit_runs t Hwt a v f Hg (or_introl Hs)) as (v1 & f1 & Hrun & Hl).
    rewrite Hrun. cbn [bind].
    exact (IH Hcf Hbad a v1 f1 (proj1 Hl) (lowered_scope _ _ _ _ _ Hl Hs)).
  - by rewrite (Ht Hct a v f Hg (or_introl Hs) eq_refl).
Qed.

Lemma ExpressionList_loop_assert es :
  Forall (fun t =>
            chunk_free t = true ->
            forall a v f,
              generating v a f ->
              is_Some (current_scope_ (scope_name_list_ v)) \/ is_block t = true ->
              well_formed t = false -> Visit t v = Fault AssertFailure) es ->
  forallb chunk_free es = true ->
  forallb well_formed es = false ->
  forall reg a v f,
    generating v a f ->
    is_Some (current_scope_ (scope_name_list_ v)) ->
    ExpressionList_loop Visit es reg v = Fault AssertFailure.
Proof.
  induction 1 as [|t es Ht _ IH]; intros Hcf Hbad reg a v f Hg Hs; [done|].
  cbn [forallb] in Hcf, Hbad. apply andb_prop in Hcf as [Hct Hcf].
  cbn [ExpressionList_loop].
  rewrite (func_do_ok _ v a f Hg). cbn [bind].
  pose proof (lowered_SetNextRegister a v f reg Hg) as Hl1.
  rewrite (func_do_ok _ _ a _ (proj1 Hl1)). cbn [bind].
  pose proof (lowered_AddInstruction a _ _ (ACode OpType_SetTop reg) 0
                (proj1 Hl1)) as Hl2.
  pose proof (lowered_trans _ _ _ _ _ _ _ Hl1 Hl2) as Hl12.
  pose proof (lowered_scope _ _ _ _ _ Hl12 Hs) as Hs2.
  destruct (well_formed t) eqn:Hwt.
  - destruct (Visit_runs t Hwt a _ _ (proj1 Hl2) (or_introl Hs2))
      as (v3 & f3 & Hrun & Hl3).
    rewrite Hrun. cbn [bind].
    exact (IH Hcf Hbad (reg + 1) a v3 f3 (proj1 Hl3)
             (lowered_scope _ _ _ _ _ Hl3 Hs2)).
  - by rewrite (Ht Hct a _ _ (proj1 Hl2) (or_introl Hs2) eq_refl).
Qed.

Lemma Visit_assert t :
  chunk_free t = true ->
  forall a v f,
    generating v a f ->
    is_Some (current_scope_ (scope_name_list_ v)) \/ is_block t = true ->
    well_formed t = false ->
    Visit t v = Fault AssertFailure.
Proof.
  induction t as [b m _|ss r IHss IHr|n e IHn IHe|tok|names|c args IHc IHargs
                 |es IHes] using SyntaxTree_nested_ind;
    intros Hcf a v f Hg Hs Hbad; cbn [chunk_free well_formed] in Hcf, Hbad.
  - done.
  - apply andb_prop in Hcf as [Hcss Hcr].
    change (Visit (Block ss r) v) with (Visit_Block Visit ss r v).
    unfold Visit_Block, NameScope_new. rewrite (proj1 Hg). cbn [bind fst snd].
    set (v0 := set_scope_name_list _ v).
    assert (generating v0 a f) as Hg0 by done.
    assert (is_Some (current_scope_ (scope_name_list_ v0))) as Hs0
      by (by eexists).
    rewrite (func_get_ok GetNextRegister v0 a f Hg0). cbn [bind].
    destruct (forallb well_formed ss) eqn:Hwss.
    + destruct (visit_each_lowered ss (Forall_runs ss) Hwss a v0 f Hg0 Hs0)
        as (v1 & f1 & Hrun1 & Hl1).
      rewrite Hrun1. cbn [bind andb] in *.
      destruct r as [x|]; [|done]. cbn [visit_opt].
      by rewrite (IHr x eq_refl Hcr a v1 f1 (proj1 Hl1)
                    (or_introl (lowered_scope _ _ _ _ _ Hl1 Hs0)) Hbad).
    + by rewrite (visit_each_assert ss IHss Hcss Hwss a v0 f Hg0 Hs0).
  - destruct Hs as [Hs|Hs]; [|done].
    apply andb_prop in Hcf as [Hcn Hce].
    change (Visit (LocalNameListStatement n e) v)
      with (Visit_LocalNameListStatement Visit n e v).
    unfold Visit_LocalNameListStatement.
    destruct (well_formed n) eqn:Hwn.
    + destruct (Visit_runs n Hwn a v f Hg (or_introl Hs))
        as (v1 & f1 & Hrun1 & Hl1).
      rewrite Hrun1. cbn [bind andb] in *.
      rewrite (func_get_ok GetNextRegister v1 a f1 (proj1 Hl1)). cbn [bind].
      rewrite (func_get_ok GetRegisterCount v1 a f1 (proj1 Hl1)). cbn [bind].
      destruct e as [x|]; [|done]. cbn [visit_opt].
      by rewrite (IHe x eq_refl Hce a v1 f1 (proj1 Hl1)
                    (or_introl (lowered_scope _ _ _ _ _ Hl1 Hs)) Hbad).
    + by rewrite (IHn Hcn a v f Hg (or_introl Hs) eq_refl).
  - change (Visit (Terminator tok) v) with (Visit_Terminator tok v).
    unfold Visit_Terminator. apply bool_decide_eq_false in Hbad.
    destruct (Lex.token_ tok); try done; exfalso; apply Hbad; auto.
  - destruct Hs as [Hs|Hs]; [|done].
    by apply (Visit_NameList_assert names Hbad a v f).
  - destruct Hs as [Hs|Hs]; [|done].
    apply andb_prop in Hcf as [Hcc Hca].
    change (Visit (NormalFuncCall c args) v)
      with (Visit_NormalFuncCall Visit c args v).
    unfold Visit_NormalFuncCall.
    rewrite (func_get_ok GetNextRegister v a f Hg). cbn [bind].
    destruct (well_formed c) eqn:Hwc.
    + destruct (Visit_runs c Hwc a v f Hg (or_introl Hs))
        as (v1 & f1 & Hrun1 & Hl1).
      rewrite Hrun1. cbn [bind andb] in *.
      rewrite (func_do_ok _ v1 a f1 (proj1 Hl1)). cbn [bind].
      pose proof (lowered_SetNextRegister a v1 f1 (GetNextRegister f + 1)
                    (proj1 Hl1)) as Hl2.
      rewrite (func_do_ok _ _ a _ (proj1 Hl2)). cbn [bind].
      pose proof (lowered_AddInstruction a _ _
                    (ACode OpType_SetTop (GetNextRegister f + 1)) 0
                    (proj1 Hl2)) as Hl3.
      destruct args as [x|]; [|done]. cbn [visit_opt].
      rewrite (IHargs x eq_refl Hca a _ _ (proj1 Hl3)); [done| |exact Hbad].
      left. eapply lowered_scope; [exact Hl3|].
      eapply lowered_scope; [exact Hl2|].
      eapply lowered_scope; [exact Hl1 | exact Hs].
    + by rewrite (IHc Hcc a v f Hg (or_introl Hs) eq_refl).
  - destruct Hs as [Hs|Hs]; [|done].
    change (Visit (ExpressionList es) v)
      with (Visit_ExpressionList Visit es v).
    unfold Visit_ExpressionList.
    rewrite (func_get_ok GetNextRegister v a f Hg). cbn [bind].
    by apply (ExpressionList_loop_assert es IHes Hcf Hbad _ a v f).
Qed.

(** X15 (completion or assertion).  With a function being generated and
    inside a scope (for a [Block], even without a scope), the handlers of
    a tree without [Chunk] never read through a null pointer: they run to
    completion when every [Terminator] is a number or a string and every
    entry of a [NameList] is an identifier, and they stop at a failed
    assertion otherwise. *)
Theorem lowering_completes_or_asserts t a v f :
  chunk_free t = true ->
  generating v a f ->
  is_Some (current_scope_ (scope_name_list_ v)) \/ is_block t = true ->
  (well_formed t = true -> exists v', Visit t v = Ok v') /\
  (well_formed t = false -> Visit t v = Fault AssertFailure) /\
  Visit t v <> Fault NullDereference.
Proof.
  intros Hcf Hg Hs.
  assert (well_formed t = true -> exists v', Visit t v = Ok v') as Hok.
  { intros Hwf.
    destruct (Visit_runs t Hwf a v f Hg Hs) as (v' & _ & Hrun & _).
    by exists v'. }
  pose proof (Visit_assert t Hcf a v f Hg Hs) as Hbad.
  split; [exact Hok|]. split; [exact Hbad|].
  destruct (well_formed t).
  - destruct (Hok eq_refl) as [v' ->]. discriminate.
  - rewrite (Hbad eq_refl). discriminate.
Qed.

Lemma lowering_completes_or_asserts_witness :
  let a := mkTokenDetail Token_Id 0 (Some 7%nat) 1 in
  let one := Terminator (mkTokenDetail Token_Number 1 nullptr 1) in
  let t := Block [NormalFuncCall one (Some (ExpressionList [one; Terminator a]))]
                 None in
  let v := mkVisitor [Function_new] ScopeNameList_new [] (Some 0%nat) in
  Visit t v = Fault AssertFailure.
Proof.
  intros a one t v.
  apply (proj1 (proj2 (lowering_completes_or_asserts t 0%nat v Function_new
                         eq_refl (conj eq_refl eq_refl) (or_intror eq_refl)))).
  reflexivity.
Defined.

(** X16 (a literal).  For a number or string token, while a function is
    being generated, the handler of a [Terminator] runs to completion
    whether or not a scope is open: it takes exactly the register that was
    next, emits exactly one instruction, the load-constant into that
    register with the token's line, raises the register count to cover the
    register, and leaves the name table, [names_register_], [func_] and
    all other functions as they were. *)
Theorem terminator_loads_into_next_register tok a v f :
  Lex.token_ tok = Token_Number \/ Lex.token_ tok = Token_String ->
  generating v a f ->
  exists v' f' index,
    Visit (Terminator tok) v = Ok v' /\
    generating v' a f' /\
    next_register f' = next_register f + 1 /\
    register_count f' = Z.max (register_count f) (next_register f + 1) /\
    instructions f' =
      instructions f ++
      [(ABCode OpType_LoadConst (next_register f) index, Lex.line_ tok)] /\
    scope_name_list_ v' = scope_name_list_ v /\
    names_register_ v' = names_register_ v /\
    func_ v' = func_ v /\
    (forall b, b <> a -> state_ v' !! b = state_ v !! b).
Proof.
  intros Htok Hg.
  destruct (Visit_Terminator_ok tok v a f Hg Htok)
    as (g & index & Hrun & Hn & Hr & Hi).
  exists (set_function a g v), g, index.
  split; [exact Hrun|]. split; [by eapply generating_set_function|].
  split; [exact Hn|]. split; [exact Hr|]. split; [exact Hi|].
  split; [done|]. split; [done|]. split; [done|].
  intros b Hb. cbn. by rewrite list_lookup_insert_ne.
Qed.

Lemma terminator_loads_into_next_register_witness :
  let tok := mkTokenDetail Token_String 0 (Some 9%nat) 4 in
  let f := SetNextRegister 2 Function_new in
  let v := mkVisitor [f] ScopeNameList_new [] (Some 0%nat) in
  exists v' f' index,
    Visit (Terminator tok) v = Ok v' /\
    generating v' 0%nat f' /\
    next_register f' = 2 + 1 /\
    register_count f' = Z.max 0 (2 + 1) /\
    instructions f' = [(ABCode OpType_LoadConst 2 index, 4)] /\
    scope_name_list_ v' = scope_name_list_ v /\
    names_register_ v' = names_register_ v /\
    func_ v' = func_ v /\
    (forall b, b <> 0%nat -> state_ v' !! b = state_ v !! b).
Proof.
  intros tok f v.
  apply (terminator_loads_into_next_register tok 0%nat v f).
  - by right.
  - split; reflexivity.
Defined.

End LoweringEdges.

(** * The register count *)

Section RegisterCount.

Import Scope Func Lex Gen.

Ltac bind_inv H :=
  let x := fresh "x" in
  let E := fresh "E" in
  apply bind_Ok in H as (x & E & H).




















End RegisterCount.
